(** * EV analytics dashboard (app.py): loader, cleaner, filter, aggregates

    A shallow embedding of the data path of [app.py]:
    [load_data] -> cleaning (lines 81-89) -> sidebar filter (lines 102-117)
    -> KPI tiles and grouped counts (lines 124-170).

    Conventions.
    - Text is a list of 8-bit code points ([ascii]).  On these code points
      the class [\d] of Python's [re] is exactly ['0'..'9'].
    - A CSV cell of a numeric column is a [cell]: missing, integer, float
      or text, as [pandas.read_csv] leaves it.  The columns [make] and
      [model] hold text in every row; a [city] cell may be missing.
    - Python exceptions are values of [exn]; a computation that may raise
      returns a [result].
    - Integers of a cleaned column are int64: a cast that leaves the range
      is written out.  A float read from text is the double nearest to the
      decimal written ([double_of_decimal]).
    - The float64 that [Series.mean()] returns on a column that has rows is
      a parameter ([float_mean]); on an empty column it is NaN.
    - DataFrames are objects in a [memory]; [df] and [df_f] are names bound
      to objects.  A column assignment writes into the object, indexing
      with a mask builds a new one. *)

From Stdlib Require Import List String Ascii Bool Arith ZArith NArith QArith Lia.
From Stdlib Require Import Permutation Sorted.
Import ListNotations.

Set Implicit Arguments.

Open Scope nat_scope.
Open Scope list_scope.

(* ------------------------------------------------------------------ *)
(** ** Text

    A text is a string of characters with code points below 256. *)

Definition text := list ascii.

(** A literal of the source, as text. *)
Definition lit (s : string) : text := list_ascii_of_string s.

Definition chr_eqb (a b : ascii) : bool := Ascii.eqb a b.

(** The characters that [\d] matches and that [float] reads as digits: the
    decimal digits of Unicode, of which ['0'] to ['9'] are the ones with a
    code point below 256. *)
Definition is_digit (c : ascii) : bool :=
  let n := nat_of_ascii c in (48 <=? n) && (n <=? 57).

(* ------------------------------------------------------------------ *)
(** ** Exceptions *)

Inductive exn : Type :=
| ValueError      (* int('abc'), float('1.2.3'), int(nan), astype(int) on NaN *)
| OverflowError   (* a Python int too large for int64 *)
| AttributeError  (* .str on a column without text *)
| StopException.  (* st.stop() *)

Inductive result (A : Type) : Type :=
| Ok (a : A)
| Raise (e : exn).
Arguments Ok {A} a.
Arguments Raise {A} e.

Definition bind {A B} (m : result A) (k : A -> result B) : result B :=
  match m with
  | Ok a => k a
  | Raise e => Raise e
  end.

Notation "x <- m ;; k" := (bind m (fun x => k))
  (at level 61, m at next level, right associativity).

(** The value of a computation that did not raise. *)
Definition ok_of {A} (m : result A) : option A :=
  match m with
  | Ok a => Some a
  | Raise _ => None
  end.

(** A column operation that raises at the first offending element. *)
Fixpoint mapM {A B} (f : A -> result B) (l : list A) : result (list B) :=
  match l with
  | [] => Ok []
  | x :: l' => y <- f x ;; ys <- mapM f l' ;; Ok (y :: ys)
  end.

(* ------------------------------------------------------------------ *)
(** ** The fragment of [re] used by the two patterns

    [r"POINT \(([-\d\.]+)"] and [r"([-\d\.]+)\)$"] are built from literal
    characters, one capturing group holding a greedy [+] over a character
    set, and the anchor [$]. *)

Inductive set_item : Type :=
| SChar (c : ascii)     (* a character listed in [...] *)
| SDigit.               (* \d *)

Inductive node : Type :=
| Literal (c : ascii)
| GroupPlus (set : list set_item)   (* ( [set]+ ) *)
| EndAnchor.                        (* $ *)

Definition pattern := list node.

Definition item_matches (c : ascii) (i : set_item) : bool :=
  match i with
  | SChar d => chr_eqb c d
  | SDigit => is_digit c
  end.

Definition in_set (set : list set_item) (c : ascii) : bool :=
  existsb (item_matches c) set.

(** Greedy [+] with backtracking: take one more character of the set, try
    to take still more first, and fall back to the continuation [k] at the
    current length when the longer attempts fail.  [taken] is what the
    group has consumed so far. *)
Fixpoint plus_from {R} (cls : ascii -> bool) (k : text -> text -> option R)
         (taken : text) (s : text) : option R :=
  match s with
  | [] => None
  | c :: s' =>
      if cls c then
        match plus_from cls k (taken ++ [c]) s' with
        | Some r => Some r
        | None => k (taken ++ [c]) s'
        end
      else None
  end.

(** [match_here p g s]: match [p] at the start of [s]; [g] is group 1 so
    far.  The result is group 1 of the match. *)
Fixpoint match_here (p : pattern) (g : option text) (s : text)
  : option (option text) :=
  match p with
  | [] => Some g
  | Literal c :: p' =>
      match s with
      | x :: s' => if chr_eqb x c then match_here p' g s' else None
      | [] => None
      end
  | GroupPlus set :: p' =>
      plus_from (in_set set) (fun t rest => match_here p' (Some t) rest) [] s
  | EndAnchor :: p' =>
      (* without re.MULTILINE, $ matches at the end of the string and just
         before a newline that ends the string *)
      match s with
      | [] => match_here p' g s
      | [c] => if chr_eqb c "010" then match_here p' g s else None
      | _ => None
      end
  end.

(** [re.search]: the first start position, left to right, with a match. *)
Fixpoint search (p : pattern) (s : text) : option (option text) :=
  match match_here p None s with
  | Some g => Some g
  | None =>
      match s with
      | [] => None
      | _ :: s' => search p s'
      end
  end.

(** The set [-\d\.] shared by both patterns. *)
Definition coord_set : list set_item := [SChar "-"; SDigit; SChar "."].

Definition coord_chr : ascii -> bool := in_set coord_set.

(** [r"POINT \(([-\d\.]+)"] *)
Definition LON_PATTERN : pattern :=
  map Literal (lit "POINT (") ++ [GroupPlus coord_set].

(** [r"([-\d\.]+)\)$"] *)
Definition LAT_PATTERN : pattern :=
  [GroupPlus coord_set; Literal ")"; EndAnchor].

(** [Series.str.extract(pat)] on one cell: a missing cell stays missing,
    a cell without a match becomes missing, otherwise group 1. *)
Definition str_extract (p : pattern) (c : option text) : option text :=
  match c with
  | None => None
  | Some s =>
      match search p s with
      | Some g => g
      | None => None
      end
  end.

(* ------------------------------------------------------------------ *)
(** ** float() on extracted text *)

Record decimal : Type := Dec {
  dneg : bool;     (* leading '-' *)
  dmant : N;       (* the digits read as one number *)
  dscale : nat     (* how many of them follow the point *)
}.

Definition decimal_value (d : decimal) : Q :=
  let m := Z.of_N (dmant d) in
  Qmake (if dneg d then (- m)%Z else m)
        (match dscale d with
         | O => 1%positive
         | S _ => Pos.pow 10 (Pos.of_nat (dscale d))
         end).

(** Read a run of digits: the number so far, how many were read, the rest. *)
Fixpoint read_digits (acc : N) (n : nat) (s : text) : N * nat * text :=
  match s with
  | c :: s' =>
      if is_digit c
      then read_digits (10 * acc + (N_of_ascii c - 48))%N (S n) s'
      else (acc, n, s)
  | [] => (acc, n, s)
  end.

(** The decimal written by a text of the kind that reaches [float] here:
    every string handed to it is group 1 of one of the two patterns, hence
    a non-empty string over ['-'], ['.'] and digits (lemma
    [search_group_chars]).  On such strings [float] accepts an optional
    ['-'], then digits with at most one point and at least one digit, and
    raises [ValueError] otherwise. *)
Definition float_digits (neg : bool) (s1 : text) : option decimal :=
  let '(m1, k1, s2) := read_digits 0%N 0 s1 in
  match s2 with
  | [] => if Nat.eqb k1 0 then None else Some (Dec neg m1 0)
  | c :: s3 =>
      if chr_eqb c "." then
        let '(m2, k2, s4) := read_digits m1 0 s3 in
        match s4 with
        | [] => if Nat.eqb (k1 + k2) 0 then None else Some (Dec neg m2 k2)
        | _ :: _ => None
        end
      else None
  end.

Definition parse_decimal (s : text) : option decimal :=
  match s with
  | c :: r => if chr_eqb c "-" then float_digits true r else float_digits false s
  | [] => None
  end.

(** A double: [(-1)^neg * mant * 2^exp] with [mant < 2^53] and
    [-1074 <= exp <= 971], where [2^52 <= mant] unless [exp = -1074]; or an
    infinity. *)
Inductive double : Type :=
| DFinite (neg : bool) (mant : N) (exp : Z)
| DInfinity (neg : bool).

(** The integer nearest to [a / b], ties to the even one ([0 <= a], [0 < b]). *)
Definition round_half_even (a b : Z) : Z :=
  let q := (a / b)%Z in
  let r := (a mod b)%Z in
  if (2 * r <? b)%Z then q
  else if (b <? 2 * r)%Z then (q + 1)%Z
  else if Z.even q then q else (q + 1)%Z.

(** [n / (d * 2^e)] as the quotient of two integers. *)
Definition scale_num (n e : Z) : Z := (n * 2 ^ Z.max 0 (- e))%Z.
Definition scale_den (d e : Z) : Z := (d * 2 ^ Z.max 0 e)%Z.

(** The double nearest to [n / d], ties to even ([0 <= n], [0 < d]): the
    exponent that leaves 53 bits, or the least one; the mantissa rounded;
    a mantissa rounded up to [2^53] renormalised; infinity past the
    largest double. *)
Definition round_ratio (neg : bool) (n d : Z) : double :=
  if (n =? 0)%Z then DFinite neg 0 (-1074)
  else
    let e0 := Z.max (Z.log2 n - Z.log2 d - 52) (-1074) in
    let e := if ((scale_num n e0 / scale_den d e0 <? 2 ^ 52)
                 && (-1074 <? e0))%Z
             then (e0 - 1)%Z else e0 in
    let m := round_half_even (scale_num n e) (scale_den d e) in
    let '(m, e) := if (m =? 2 ^ 53)%Z then ((2 ^ 52)%Z, (e + 1)%Z) else (m, e) in
    if (971 <? e)%Z then DInfinity neg else DFinite neg (Z.to_N m) e.

Definition double_of_decimal (v : decimal) : double :=
  round_ratio (dneg v) (Z.of_N (dmant v)) (10 ^ Z.of_nat (dscale v)).

(** The number a finite double stands for. *)
Definition double_value (x : double) : option Q :=
  match x with
  | DFinite neg m e =>
      Some (inject_Z (if neg then (- Z.of_N m)%Z else Z.of_N m) * (2 # 1) ^ e)%Q
  | DInfinity _ => None
  end.

(** The double [m * 2^e] counted in units of the least double, [2^-1074]. *)
Definition units (m e : Z) : Z := (m * 2 ^ (e + 1074))%Z.

(** Python's [float(s)] on such a text: the double nearest to the decimal
    written. *)
Definition py_float (s : text) : option double :=
  option_map double_of_decimal (parse_decimal s).

(** A float cell: NaN or a number. *)
Inductive fcell : Type :=
| NaN
| Fl (d : double).

(** [astype(float)] on one cell of an object column. *)
Definition astype_float (c : option text) : result fcell :=
  match c with
  | None => Ok NaN
  | Some t =>
      match py_float t with
      | Some d => Ok (Fl d)
      | None => Raise ValueError
      end
  end.

(** Lines 85-89 on one cell of [vehicle_location]: both extractions, then
    latitude is converted before longitude. *)
Definition clean_location (c : option text) : result (fcell * fcell) :=
  let lon := str_extract LON_PATTERN c in
  let lat := str_extract LAT_PATTERN c in
  lat' <- astype_float lat ;;
  lon' <- astype_float lon ;;
  Ok (lon', lat').


(* ------------------------------------------------------------------ *)
(** ** Tables *)

(** A cell of a numeric CSV column as [read_csv] leaves it. *)
Inductive cell : Type :=
| NA                   (* missing (NaN) *)
| CInt (z : Z)
| CFloat (q : Q)       (* finite float *)
| CInf                 (* +-inf *)
| CText (t : text).    (* the column did not parse as numbers *)

(** The columns of the CSV the script reads, in a row that has a make and
    a model. *)
Record raw_row : Type := RawRow {
  raw_model_year : cell;
  raw_make : text;
  raw_model : text;
  raw_city : option text;
  raw_electric_range : cell;
  raw_base_msrp : cell;
  raw_vehicle_location : option text
}.

(** A row after lines 81-89. *)
Record row : Type := Row {
  model_year : Z;
  make : text;
  model : text;
  city : option text;
  electric_range : Z;
  base_msrp : Z;
  vehicle_location : option text;
  longitude : fcell;
  latitude : fcell
}.

(** [fillna(0)] on one cell. *)
Definition fillna0 (c : cell) : cell :=
  match c with
  | NA => CInt 0%Z
  | _ => c
  end.

(** Truncation toward zero. *)
Definition trunc (q : Q) : Z := Z.quot (Qnum q) (Zpos (Qden q)).

Definition INT64_MIN : Z := (- 2 ^ 63)%Z.

Definition in_int64 (z : Z) : bool :=
  ((INT64_MIN <=? z) && (z <? 2 ^ 63))%Z.

(** The cast of an integer to int64: the value modulo [2^64]. *)
Definition wrap64 (z : Z) : Z := ((z + 2 ^ 63) mod 2 ^ 64 - 2 ^ 63)%Z.

Section Cleaning.

(** Python's [int(s)] on a text cell; [None] is [ValueError]. *)
Variable py_int : text -> option Z.

(** [astype(int)] on one cell.  A missing or non-finite value raises.  An
    integer column is int64, or uint64 when it holds a value from [2^63]
    up, and the cast to int64 wraps.  A finite float is truncated, and one
    whose integer part leaves the range becomes [INT64_MIN], which is what
    the conversion instruction of x86-64 returns.  On a text
    cell [int] is called; an integer that leaves the range raises
    [OverflowError]. *)
Definition astype_int (c : cell) : result Z :=
  match c with
  | NA => Raise ValueError
  | CInt z => Ok (wrap64 z)
  | CFloat q => Ok (if in_int64 (trunc q) then trunc q else INT64_MIN)
  | CInf => Raise ValueError
  | CText t =>
      match py_int t with
      | Some z => if in_int64 z then Ok z else Raise OverflowError
      | None => Raise ValueError
      end
  end.

(** The [.str] accessor of a column: a column that has rows and no text in
    any of them is a float column, which has none. *)
Definition str_accessor (col : list (option text)) : result unit :=
  match col with
  | [] => Ok tt
  | _ :: _ =>
      if forallb (fun c => match c with None => true | Some _ => false end) col
      then Raise AttributeError
      else Ok tt
  end.

(** Put the cleaned columns back next to the untouched ones. *)
Fixpoint assemble (df : list raw_row) (years ranges msrps : list Z)
         (lons lats : list fcell) : list row :=
  match df, years, ranges, msrps, lons, lats with
  | r :: df', y :: years', e :: ranges', b :: msrps', lo :: lons', la :: lats' =>
      Row y (raw_make r) (raw_model r) (raw_city r) e b
          (raw_vehicle_location r) lo la
      :: assemble df' years' ranges' msrps' lons' lats'
  | _, _, _, _, _, _ => []
  end.

(** Lines 81-89, one column statement after the other. *)
Definition clean (df : list raw_row) : result (list row) :=
  years <- mapM astype_int (map raw_model_year df) ;;
  ranges <- mapM astype_int (map fillna0 (map raw_electric_range df)) ;;
  msrps <- mapM astype_int (map fillna0 (map raw_base_msrp df)) ;;
  _ <- str_accessor (map raw_vehicle_location df) ;;
  let lon := map (str_extract LON_PATTERN) (map raw_vehicle_location df) in
  let lat := map (str_extract LAT_PATTERN) (map raw_vehicle_location df) in
  lats <- mapM astype_float lat ;;
  lons <- mapM astype_float lon ;;
  Ok (assemble df years ranges msrps lons lats).

(** The six conversions of lines 81-89 without the accessor. *)
Definition clean_columns (df : list raw_row) : result (list row) :=
  years <- mapM astype_int (map raw_model_year df) ;;
  ranges <- mapM astype_int (map fillna0 (map raw_electric_range df)) ;;
  msrps <- mapM astype_int (map fillna0 (map raw_base_msrp df)) ;;
  let lon := map (str_extract LON_PATTERN) (map raw_vehicle_location df) in
  let lat := map (str_extract LAT_PATTERN) (map raw_vehicle_location df) in
  lats <- mapM astype_float lat ;;
  lons <- mapM astype_float lon ;;
  Ok (assemble df years ranges msrps lons lats).

(** Lines 81-89 read along one row. *)
Definition clean_row (r : raw_row) : result row :=
  y <- astype_int (raw_model_year r) ;;
  e <- astype_int (fillna0 (raw_electric_range r)) ;;
  b <- astype_int (fillna0 (raw_base_msrp r)) ;;
  p <- clean_location (raw_vehicle_location r) ;;
  Ok (Row y (raw_make r) (raw_model r) (raw_city r) e b
          (raw_vehicle_location r) (fst p) (snd p)).

End Cleaning.

(* ------------------------------------------------------------------ *)
(** ** Loader *)

(** [str.lower()] on one code point: A-Z and the capital letters of the
    upper half (all of U+00C0..U+00DE but the multiplication sign). *)
Definition lower_chr (c : ascii) : ascii :=
  let n := nat_of_ascii c in
  if ((65 <=? n) && (n <=? 90))
     || ((192 <=? n) && (n <=? 222) && negb (n =? 215))
  then ascii_of_nat (n + 32)
  else c.

Definition lower (s : text) : text := map lower_chr s.

Fixpoint text_eqb (a b : text) : bool :=
  match a, b with
  | [], [] => true
  | x :: a', y :: b' => chr_eqb x y && text_eqb a' b'
  | _, _ => false
  end.

(** [s.endswith(suffix)] *)
Fixpoint endswith (s suffix : text) : bool :=
  text_eqb s suffix ||
  match s with
  | [] => false
  | _ :: s' => endswith s' suffix
  end.

(** What the script hands to Streamlit. *)
Inductive element : Type :=
| StError (msg : string)
| StWrite (files : list text).

Definition is_csv (f : text) : bool := endswith (lower f) (lit ".csv").

Section Loader.

(** [pd.read_csv] on a file of the working directory. *)
Variable read_csv : text -> result (list raw_row).

(** The body of [load_data]; the first component is what it displays. *)
Definition load_data (listdir : list text)
  : list element * result (list raw_row) :=
  let files := filter is_csv listdir in
  if List.length files =? 0 then
    ([StError "❌ No CSV file found in the folder."], Raise StopException)
  else if 1 <? List.length files then
    ([StError "❌ Multiple CSV files found. Keep only ONE CSV in the folder.";
      StWrite files],
     Raise StopException)
  else
    ([], read_csv (hd [] files)).

(** What [@st.cache_data] keeps between calls: the serialised return
    value, and the number the next object is allocated under. *)
Record session : Type := Session {
  cache : option (list raw_row);
  next_object : nat
}.

Definition object := nat.

(** [load_data] under [@st.cache_data] (Streamlit's documented contract):
    a call that finds a stored value is handed a newly built copy of it
    and the body does not run; otherwise the body runs and its return
    value is stored.  A call that stops stores nothing. *)
Definition cached_load_data (listdir : list text) (st : session)
  : list element * result (object * list raw_row) * session :=
  match cache st with
  | Some df =>
      ([], Ok (next_object st, df), Session (cache st) (S (next_object st)))
  | None =>
      match load_data listdir with
      | (out, Ok df) =>
          (out, Ok (next_object st, df),
           Session (Some df) (S (next_object st)))
      | (out, Raise e) => (out, Raise e, st)
      end
  end.

End Loader.

(* ------------------------------------------------------------------ *)
(** ** Sidebar filter *)

(** [Series.unique()]: distinct values in order of first appearance. *)
Fixpoint unique {A} (eqb : A -> A -> bool) (l : list A) : list A :=
  match l with
  | [] => []
  | x :: l' => x :: filter (fun y => negb (eqb y x)) (unique eqb l')
  end.

Fixpoint insert_sorted {A} (leb : A -> A -> bool) (x : A) (l : list A)
  : list A :=
  match l with
  | [] => [x]
  | y :: l' => if leb x y then x :: l else y :: insert_sorted leb x l'
  end.

(** [sorted(...)]: ascending and stable. *)
Definition sorted {A} (leb : A -> A -> bool) (l : list A) : list A :=
  fold_right (insert_sorted leb) [] l.

(** Python orders strings by code point, shorter prefix first. *)
Fixpoint text_leb (a b : text) : bool :=
  match a, b with
  | [], _ => true
  | _ :: _, [] => false
  | x :: a', y :: b' =>
      let n := nat_of_ascii x in
      let m := nat_of_ascii y in
      (n <? m) || ((n =? m) && text_leb a' b')
  end.

(** [Series.isin(values)] on one cell. *)
Definition isin {A} (eqb : A -> A -> bool) (x : A) (values : list A) : bool :=
  existsb (eqb x) values.

(** Options and default of the two multiselects (lines 102-112). *)
Definition year_options (df : list row) : list Z :=
  sorted Z.leb (unique Z.eqb (map model_year df)).

Definition make_options (df : list row) : list text :=
  sorted text_leb (unique text_eqb (map make df)).

(** Lines 114-117: [df[mask_year & mask_make]]. *)
Definition df_filter (df : list row) (year : list Z) (makes : list text)
  : list row :=
  filter (fun r => isin Z.eqb (model_year r) year
                   && isin text_eqb (make r) makes) df.

(* ------------------------------------------------------------------ *)
(** ** KPI tiles and grouped counts *)

(** [int(x)] on a float: NaN raises [ValueError]. *)
Definition int_of_float (x : option Q) : result Z :=
  match x with
  | None => Raise ValueError
  | Some q => Ok (trunc q)
  end.

Section Mean.

(** The float64 that [Series.mean()] returns on an int64 column that has
    rows: the float64 sum of the column divided by its length.  It is
    finite; the order in which the sum is taken, and so how it rounds, is
    the library's and is left open. *)
Variable float_mean : list Z -> Q.

(** [Series.mean()] of an int64 column: NaN on an empty one. *)
Definition series_mean (l : list Z) : option Q :=
  match l with
  | [] => None
  | _ :: _ => Some (float_mean l)
  end.

(** Line 140: [int(df_f['electric_range'].mean())]. *)
Definition avg_mileage (df_f : list row) : result Z :=
  int_of_float (series_mean (map electric_range df_f)).

End Mean.

(** Line 126: [len(df_f)]. *)
Definition total_evs (df_f : list row) : nat := List.length df_f.

Definition count {A} (eqb : A -> A -> bool) (k : A) (l : list A) : nat :=
  List.length (filter (eqb k) l).

(** [groupby(key).size().reset_index(name="Count")]: one line per distinct
    key, keys ascending, with the number of rows holding the key. *)
Definition groupby_size {A} (eqb leb : A -> A -> bool) (keys : list A)
  : list (A * nat) :=
  map (fun k => (k, count eqb k keys)) (sorted leb (unique eqb keys)).

(** Line 158. *)
Definition count_by_make (df_f : list row) : list (text * nat) :=
  groupby_size text_eqb text_leb (map make df_f).

(** Line 165. *)
Definition count_by_year (df_f : list row) : list (Z * nat) :=
  groupby_size Z.eqb Z.leb (map model_year df_f).

Definition sum_counts {A} (g : list (A * nat)) : nat :=
  fold_right Nat.add 0 (map snd g).

(** What lines 124-170 show: the four tiles and the two grouped charts. *)
Record dashboard : Type := Dashboard {
  kpi_total_evs : nat;
  kpi_manufacturers : nat;
  kpi_avg_mileage : Z;
  kpi_cities : nat;
  chart_make : list (text * nat);
  chart_year : list (Z * nat)
}.

(** The cells of a column that are not missing. *)
Fixpoint present {A} (col : list (option A)) : list A :=
  match col with
  | [] => []
  | Some x :: col' => x :: present col'
  | None :: col' => present col'
  end.

(** [Series.nunique()]: the number of distinct values, missing ones left
    out. *)
Definition nunique {A} (eqb : A -> A -> bool) (col : list (option A)) : nat :=
  List.length (unique eqb (present col)).

Definition render (float_mean : list Z -> Q) (df_f : list row)
  : result dashboard :=
  avg <- avg_mileage float_mean df_f ;;
  Ok (Dashboard (total_evs df_f)
                (List.length (unique text_eqb (map make df_f)))
                avg
                (nunique text_eqb (map city df_f))
                (count_by_make df_f)
                (count_by_year df_f)).

Section Script.

Variable py_int : text -> option Z.
Variable float_mean : list Z -> Q.
Variable read_csv : text -> result (list raw_row).


End Script.

(* ------------------------------------------------------------------ *)
(** ** The DataFrames in memory (lines 76-117)

    [df] and [df_f] are names bound to DataFrame objects.  Lines 81-89
    assign columns of the object [df] names, which changes that object for
    every name bound to it; line 114 binds [df_f] to what [df[mask]]
    returns, a DataFrame built for the occasion with its own data. *)

(** What a DataFrame object holds: the table as read until lines 81-89 have
    run, the cleaned table after. *)
Inductive frame : Type :=
| RawFrame (t : list raw_row)
| CleanFrame (t : list row).

(** The DataFrame objects alive, each under its number, and the objects
    the two names are bound to. *)
Record memory : Type := Memory {
  heap : list frame;
  name_df : object;
  name_df_f : option object
}.

Definition deref (m : memory) (o : object) : option frame :=
  nth_error (heap m) o.

(** A new object, numbered after the ones alive. *)
Definition alloc (f : frame) (m : memory) : object * memory :=
  (List.length (heap m),
   Memory (heap m ++ [f]) (name_df m) (name_df_f m)).

Fixpoint set_nth {A} (l : list A) (n : nat) (x : A) : list A :=
  match l, n with
  | [], _ => []
  | _ :: l', O => x :: l'
  | y :: l', S n' => y :: set_nth l' n' x
  end.

(** A write into the object [o]. *)
Definition mutate (o : object) (f : frame) (m : memory) : memory :=
  Memory (set_nth (heap m) o f) (name_df m) (name_df_f m).

Section Statements.

Variable py_int : text -> option Z.

(** Lines 81-89 on the object [df] names: each [df[col] = ...] writes a
    column into it.  [None]: [df] names no table as read.  A statement that
    raises ends the run, and the object is not used again. *)
Definition stmt_clean (m : memory) : option (result memory) :=
  match deref m (name_df m) with
  | Some (RawFrame raw) =>
      Some (t <- clean py_int raw ;;
            Ok (mutate (name_df m) (CleanFrame t) m))
  | _ => None
  end.

(** Lines 114-117: [df_f = df[mask_year & mask_make]].  Indexing with a
    boolean mask reads [df] and returns a new DataFrame.  [None]: [df]
    names no cleaned table. *)
Definition stmt_filter (year : list Z) (makes : list text) (m : memory)
  : option memory :=
  match deref m (name_df m) with
  | Some (CleanFrame t) =>
      let '(o, m') := alloc (CleanFrame (df_filter t year makes)) m in
      Some (Memory (heap m') (name_df m') (Some o))
  | _ => None
  end.

End Statements.

(* ------------------------------------------------------------------ *)
(** ** The valid geometry strings *)

Fixpoint span_digits (s : text) : text * text :=
  match s with
  | c :: s' =>
      if is_digit c
      then let (d, r) := span_digits s' in (c :: d, r)
      else ([], s)
  | [] => ([], [])
  end.

Definition is_empty (s : text) : bool :=
  match s with
  | [] => true
  | _ :: _ => false
  end.

(** Digits with at most one point and at least one digit. *)
Definition unsigned_decimal (s : text) : bool :=
  let (ip, r) := span_digits s in
  match r with
  | [] => negb (is_empty ip)
  | c :: fp =>
      chr_eqb c "." && forallb is_digit fp
      && negb (is_empty ip && is_empty fp)
  end.

(** A signed decimal number: an optional leading ['-'], then an unsigned
    decimal. *)
Definition signed_decimal (s : text) : bool :=
  match s with
  | c :: r => if chr_eqb c "-" then unsigned_decimal r else unsigned_decimal s
  | [] => false
  end.

(** The text [POINT (x y)]. *)
Definition wkt_point (x y : text) : text :=
  lit "POINT (" ++ x ++ lit " " ++ y ++ lit ")".

(** Recogniser of the valid form: [POINT (x y)] with signed decimals. *)
Definition is_wkt_point (s : text) : bool :=
  existsb (fun n =>
    existsb (fun m =>
      let x := firstn n (skipn 7 s) in
      let y := firstn m (skipn (8 + n) s) in
      signed_decimal x && signed_decimal y && text_eqb s (wkt_point x y))
      (seq 0 (S (List.length s))))
    (seq 0 (S (List.length s))).

Definition malformed (s : text) : bool := negb (is_wkt_point s).

(* ------------------------------------------------------------------ *)
(** ** Vocabulary of the statements *)

(** [x] is a double nearest to the decimal [v].  It has the sign written.
    When it is finite, its mantissa is below [2^53], its exponent is one of
    a double, and no [m' * 2^e'] with such a mantissa and an exponent from
    the least one up is closer to [v].  It is an infinity only when [v] is
    at least halfway from the largest double to [2^1024]. *)
Definition nearest_double (v : decimal) (x : double) : Prop :=
  let n := Z.of_N (dmant v) in
  let d := (10 ^ Z.of_nat (dscale v))%Z in
  match x with
  | DFinite neg m e =>
      neg = dneg v /\
      (Z.of_N m < 2 ^ 53)%Z /\ (-1074 <= e <= 971)%Z /\
      forall m' e',
        (0 <= m' < 2 ^ 53)%Z -> (-1074 <= e')%Z ->
        (Z.abs (n * 2 ^ 1074 - units (Z.of_N m) e * d)
         <= Z.abs (n * 2 ^ 1074 - units m' e' * d))%Z
  | DInfinity neg =>
      neg = dneg v /\ ((2 ^ 54 - 1) * 2 ^ 970 * d <= n)%Z
  end.

(** [s] does not continue a run of [cls]. *)
Definition stops (cls : ascii -> bool) (s : text) : bool :=
  match s with
  | [] => true
  | c :: _ => negb (cls c)
  end.

(** A [POINT (x y] whose closing parenthesis is missing. *)
Definition unclosed_point (x y : text) : text :=
  lit "POINT (" ++ x ++ lit " " ++ y.

(** A point written with a comma between the numbers, [POINT (x, y)]. *)
Definition comma_point (x y : text) : text :=
  lit "POINT (" ++ x ++ lit ", " ++ y ++ lit ")".

(** [s] without the prefix [p], when it starts with [p]. *)
Fixpoint strip_prefix (p s : text) : option text :=
  match p, s with
  | [], _ => Some s
  | a :: p', b :: s' => if chr_eqb b a then strip_prefix p' s' else None
  | _ :: _, [] => None
  end.

(** The text starts with [POINT (] and a character of the set. *)
Definition point_here (s : text) : bool :=
  match strip_prefix (lit "POINT (") s with
  | Some (c :: _) => coord_chr c
  | _ => false
  end.

(** The text holds [POINT (] followed by a character of the set. *)
Fixpoint has_point (s : text) : bool :=
  point_here s ||
  match s with
  | [] => false
  | _ :: s' => has_point s'
  end.

(** The text ends in a character of the set and [)], or in these and a
    final newline. *)
Definition ends_number_paren (s : text) : bool :=
  match rev s with
  | a :: b :: r =>
      (chr_eqb a ")" && coord_chr b)
      || (chr_eqb a "010" && chr_eqb b ")"
          && match r with
             | c :: _ => coord_chr c
             | [] => false
             end)
  | _ => false
  end.

(** [l1] is [l2] with some elements left out, order kept. *)
Inductive subseq {A} : list A -> list A -> Prop :=
| subseq_nil : subseq [] []
| subseq_keep x l1 l2 : subseq l1 l2 -> subseq (x :: l1) (x :: l2)
| subseq_drop x l1 l2 : subseq l1 l2 -> subseq l1 (x :: l2).

(** The sum of [g] over a list. *)
Definition total {B} (g : B -> nat) (l : list B) : nat :=
  fold_right Nat.add 0 (map g l).

(** The integer a cell stands for, when it stands for one: an integer, a
    finite float cut toward zero, a text that [int] reads. *)
Definition cell_integer (py_int : text -> option Z) (c : cell) : option Z :=
  match c with
  | NA => None
  | CInt z => Some z
  | CFloat q => Some (trunc q)
  | CInf => None
  | CText t => py_int t
  end.

(** The cell stands for an integer of the int64 range. *)
Definition coercible (py_int : text -> option Z) (c : cell) : bool :=
  match cell_integer py_int c with
  | Some z => in_int64 z
  | None => false
  end.

(** The cells on which [astype(int)] raises: a missing or infinite value,
    a text that [int] rejects or reads as an integer outside int64. *)
Definition fatal_cell (py_int : text -> option Z) (c : cell) : bool :=
  match c with
  | NA | CInf => true
  | CText t =>
      match py_int t with
      | Some z => negb (in_int64 z)
      | None => true
      end
  | CInt _ | CFloat _ => false
  end.

(** What [astype(int)] leaves in a column for a cell. *)
Definition coerced (py_int : text -> option Z) (c : cell) (z' : Z) : Prop :=
  in_int64 z' = true /\
  (forall z, cell_integer py_int c = Some z -> in_int64 z = true -> z' = z) /\
  (forall q, c = CFloat q -> in_int64 (trunc q) = false -> z' = INT64_MIN) /\
  (forall z, c = CInt z -> z' = wrap64 z) /\
  fatal_cell py_int c = false.

(** How the three numeric columns of a cleaned row come from the raw row. *)
Definition numeric_cleaned (py_int : text -> option Z) (r : raw_row) (r' : row)
  : Prop :=
  coerced py_int (raw_model_year r) (model_year r') /\
  coerced py_int (fillna0 (raw_electric_range r)) (electric_range r') /\
  coerced py_int (fillna0 (raw_base_msrp r)) (base_msrp r') /\
  (raw_electric_range r = NA -> electric_range r' = 0%Z) /\
  (raw_base_msrp r = NA -> base_msrp r' = 0%Z).

(** Line 76 over the reruns of the script: one call of the cached loader
    per rerun, each with the directory as it is then; the tables obtained,
    in order, each with the object it came as. *)
Fixpoint run_calls (read_csv : text -> result (list raw_row))
         (dirs : list (list text)) (st : session)
  : list (object * list raw_row) :=
  match dirs with
  | [] => []
  | listdir :: dirs' =>
      match cached_load_data read_csv listdir st with
      | (_, Ok r, st') => r :: run_calls read_csv dirs' st'
      | (_, Raise _, st') => run_calls read_csv dirs' st'
      end
  end.

(** The sum of a column divided by its length.  It is the float64 mean of
    the column whenever the sum and the quotient are float64 values, as in
    the examples below. *)
Definition exact_mean (l : list Z) : Q :=
  Qmake (fold_right Z.add 0%Z l) (Pos.of_nat (List.length l)).

(** Some conversion of lines 81-89 raises on a cell of the row. *)
Definition row_fails (py_int : text -> option Z) (r : raw_row) : Prop :=
  fatal_cell py_int (raw_model_year r) = true \/
  fatal_cell py_int (fillna0 (raw_electric_range r)) = true \/
  fatal_cell py_int (fillna0 (raw_base_msrp r)) = true \/
  clean_location (raw_vehicle_location r) = Raise ValueError.

(** What a cleaned row keeps of the raw row, and where its coordinates
    come from. *)
Definition row_carried (r : raw_row) (r' : row) : Prop :=
  make r' = raw_make r /\ model r' = raw_model r /\ city r' = raw_city r /\
  vehicle_location r' = raw_vehicle_location r /\
  clean_location (raw_vehicle_location r) = Ok (longitude r', latitude r').

(** Some row of the table has a geometry string.  A column without any
    text has no [.str] accessor, so line 85 runs only on a table that has
    one, or on a table without rows. *)
Definition has_geometry_text (raw : list raw_row) : Prop :=
  exists r, In r raw /\ raw_vehicle_location r <> None.

(* ================================================================== *)
(** * Properties *)

(** ** Text equality *)

Lemma chr_eqb_eq (a b : ascii) : chr_eqb a b = true <-> a = b.
Proof. apply Ascii.eqb_eq. Qed.

Lemma chr_eqb_refl (a : ascii) : chr_eqb a a = true.
Proof. apply Ascii.eqb_refl. Qed.

Lemma text_eqb_eq (a b : text) : text_eqb a b = true <-> a = b.
Proof.
  revert b; induction a as [|x a IH]; intros [|y b]; simpl; split;
    try congruence; try reflexivity.
  - rewrite andb_true_iff, chr_eqb_eq, IH. intros [-> ->]; reflexivity.
  - intros E; injection E as -> ->.
    rewrite chr_eqb_refl. simpl. apply IH; reflexivity.
Qed.

Lemma text_eqb_refl (a : text) : text_eqb a a = true.
Proof. apply text_eqb_eq; reflexivity. Qed.

(** ** The greedy group *)

Section Greedy.

Variable R : Type.
Variable cls : ascii -> bool.

Lemma plus_from_stops (k : text -> text -> option R) taken s :
  stops cls s = true -> plus_from cls k taken s = None.
Proof.
  destruct s as [|c s]; simpl; [reflexivity|].
  destruct (cls c); [discriminate | reflexivity].
Qed.

(** The longest run is tried first. *)
Lemma plus_from_longest (k : text -> text -> option R) t :
  forall taken s r,
    t <> [] -> forallb cls t = true -> stops cls s = true ->
    k (taken ++ t) s = Some r ->
    plus_from cls k taken (t ++ s) = Some r.
Proof.
  induction t as [|c t IH]; intros taken s r Hne Hall Hstop Hk;
    [congruence|].
  simpl in Hall. apply andb_true_iff in Hall as [Hc Hall].
  simpl. rewrite Hc.
  destruct t as [|c' t].
  - simpl. rewrite (plus_from_stops k (taken ++ [c]) s Hstop). exact Hk.
  - rewrite (IH (taken ++ [c]) s r); auto.
    + discriminate.
    + rewrite <- app_assoc. exact Hk.
Qed.

(** Whatever [plus_from] returns comes from the continuation, after a
    non-empty run of [cls]. *)
Lemma plus_from_sound (k : text -> text -> option R) s :
  forall taken r,
    plus_from cls k taken s = Some r ->
    exists t rest,
      t <> [] /\ forallb cls t = true /\ s = t ++ rest /\
      k (taken ++ t) rest = Some r.
Proof.
  induction s as [|c s IH]; intros taken r H; simpl in H; [discriminate|].
  destruct (cls c) eqn:Hc; [|discriminate].
  destruct (plus_from cls k (taken ++ [c]) s) as [r'|] eqn:Hrec.
  - injection H as ->.
    destruct (IH _ _ Hrec) as (t & rest & Hne & Hall & -> & Hk).
    exists (c :: t), rest. repeat split.
    + discriminate.
    + simpl. rewrite Hc. exact Hall.
    + rewrite <- app_assoc in Hk. exact Hk.
  - exists [c], s. repeat split.
    + discriminate.
    + simpl. rewrite Hc. reflexivity.
    + exact H.
Qed.

(** A run of [cls] followed by a character outside [cls] splits a text in
    one way only. *)
Lemma run_split_unique t1 : forall t2 c1 c2 r1 r2,
  forallb cls t1 = true -> forallb cls t2 = true ->
  cls c1 = false -> cls c2 = false ->
  t1 ++ c1 :: r1 = t2 ++ c2 :: r2 ->
  t1 = t2 /\ c1 = c2 /\ r1 = r2.
Proof.
  induction t1 as [|a t1 IH]; intros [|b t2] c1 c2 r1 r2 H1 H2 N1 N2 E;
    simpl in *.
  - injection E as -> ->. auto.
  - injection E as -> _. apply andb_true_iff in H2 as [H2 _]. congruence.
  - injection E as -> _. apply andb_true_iff in H1 as [H1 _]. congruence.
  - injection E as -> E.
    apply andb_true_iff in H1 as [_ H1]. apply andb_true_iff in H2 as [_ H2].
    destruct (IH _ _ _ _ _ H1 H2 N1 N2 E) as (-> & -> & ->). auto.
Qed.

End Greedy.

(** ** Matching and searching *)

Lemma match_literals l : forall p g s,
  match_here (map Literal l ++ p) g (l ++ s) = match_here p g s.
Proof.
  induction l as [|c l IH]; intros p g s; simpl; [reflexivity|].
  rewrite chr_eqb_refl. apply IH.
Qed.

Lemma match_literals_sound l : forall p g s r,
  match_here (map Literal l ++ p) g s = Some r ->
  exists s', s = l ++ s' /\ match_here p g s' = Some r.
Proof.
  induction l as [|c l IH]; intros p g s r H; simpl in H.
  - exists s. auto.
  - destruct s as [|x s]; [discriminate|].
    destruct (chr_eqb x c) eqn:E; [|discriminate].
    apply chr_eqb_eq in E as ->.
    destruct (IH _ _ _ _ H) as (s' & -> & H'). exists s'. auto.
Qed.

Lemma search_here p s g :
  match_here p None s = Some g -> search p s = Some g.
Proof. intros H. destruct s; simpl; rewrite H; reflexivity. Qed.

Lemma search_skip p c s :
  match_here p None (c :: s) = None -> search p (c :: s) = search p s.
Proof. intros H. simpl search at 1. rewrite H. reflexivity. Qed.

Lemma search_sound p s : forall g,
  search p s = Some g ->
  exists pre s', s = pre ++ s' /\ match_here p None s' = Some g.
Proof.
  induction s as [|c s IH]; intros g H; simpl in H.
  - destruct (match_here p None []) eqn:E; [|discriminate].
    injection H as ->. exists [], []. auto.
  - destruct (match_here p None (c :: s)) eqn:E.
    + injection H as ->. exists [], (c :: s). auto.
    + destruct (IH _ H) as (pre & s' & -> & H').
      exists (c :: pre), s'. auto.
Qed.

(** The longitude pattern matches exactly at [POINT (] followed by a run
    of the set. *)
Lemma lon_match_sound s g :
  match_here LON_PATTERN None s = Some g ->
  exists t rest,
    t <> [] /\ forallb coord_chr t = true /\ g = Some t /\
    s = lit "POINT (" ++ t ++ rest.
Proof.
  intros H. unfold LON_PATTERN in H.
  apply match_literals_sound in H as (s' & -> & H).
  simpl in H. apply plus_from_sound in H as (t & rest & Hne & Hall & -> & Hk).
  simpl in Hk. injection Hk as <-.
  exists t, rest. auto.
Qed.

Lemma lon_match t rest :
  t <> [] -> forallb coord_chr t = true -> stops coord_chr rest = true ->
  match_here LON_PATTERN None (lit "POINT (" ++ t ++ rest) = Some (Some t).
Proof.
  intros Hne Hall Hstop. unfold LON_PATTERN.
  rewrite match_literals. simpl.
  apply plus_from_longest; auto.
Qed.

(** The latitude pattern matches exactly a run of the set followed by
    [)] and the end of the text, or by [)] and a final newline. *)
Lemma lat_match_sound s g :
  match_here LAT_PATTERN None s = Some g ->
  exists t,
    t <> [] /\ forallb coord_chr t = true /\ g = Some t /\
    (s = t ++ [")"%char] \/ s = t ++ [")"%char; "010"%char]).
Proof.
  intros H. unfold LAT_PATTERN in H. simpl in H.
  apply plus_from_sound in H as (t & rest & Hne & Hall & -> & Hk).
  simpl in Hk. exists t.
  destruct rest as [|c rest]; [discriminate|].
  destruct (chr_eqb c ")") eqn:Ec; [|discriminate].
  apply chr_eqb_eq in Ec as ->.
  destruct rest as [|c rest].
  - injection Hk as <-. auto.
  - destruct rest as [|c' rest]; [|discriminate].
    destruct (chr_eqb c "010") eqn:En; [|discriminate].
    apply chr_eqb_eq in En as ->. injection Hk as <-. auto.
Qed.

Lemma lat_match t :
  t <> [] -> forallb coord_chr t = true ->
  match_here LAT_PATTERN None (t ++ [")"%char]) = Some (Some t).
Proof.
  intros Hne Hall. unfold LAT_PATTERN. simpl.
  apply plus_from_longest; auto.
Qed.

Lemma lat_skip_chr c s :
  coord_chr c = false ->
  search LAT_PATTERN (c :: s) = search LAT_PATTERN s.
Proof.
  intros Hc. apply search_skip. unfold LAT_PATTERN. cbn [match_here].
  apply plus_from_stops. cbn [stops]. fold coord_chr. rewrite Hc. reflexivity.
Qed.

(** A run of the set that is not followed by [)] holds no latitude. *)
Lemma lat_skip_run t : forall c s,
  forallb coord_chr t = true -> coord_chr c = false -> c <> ")"%char ->
  search LAT_PATTERN (t ++ c :: s) = search LAT_PATTERN s.
Proof.
  induction t as [|a t IH]; intros c s Hall Hc Hp.
  - apply lat_skip_chr; assumption.
  - simpl app. rewrite search_skip.
    + apply IH; auto. simpl in Hall. apply andb_true_iff in Hall. tauto.
    + destruct (match_here LAT_PATTERN None (a :: t ++ c :: s)) as [g|] eqn:E;
        [|reflexivity].
      exfalso. apply lat_match_sound in E as (t0 & _ & Hall0 & _ & Hs).
      destruct Hs as [Hs | Hs];
        change (a :: t ++ c :: s) with ((a :: t) ++ c :: s) in Hs;
        apply (run_split_unique coord_chr) in Hs; auto; tauto.
Qed.

(** A text with a latitude ends in [)] or in [)] and a newline. *)
Lemma lat_search_ends s g :
  search LAT_PATTERN s = Some g ->
  exists u, s = u ++ [")"%char] \/ s = u ++ [")"%char; "010"%char].
Proof.
  intros H. apply search_sound in H as (pre & s' & -> & H).
  apply lat_match_sound in H as (t & _ & _ & _ & [-> | ->]).
  - exists (pre ++ t). left. rewrite app_assoc. reflexivity.
  - exists (pre ++ t). right. rewrite app_assoc. reflexivity.
Qed.

Lemma lat_search_none u c :
  c <> ")"%char -> c <> "010"%char ->
  search LAT_PATTERN (u ++ [c]) = None.
Proof.
  intros Hp Hn.
  destruct (search LAT_PATTERN (u ++ [c])) as [g|] eqn:E; [|reflexivity].
  exfalso. apply lat_search_ends in E as (v & [E | E]).
  - apply app_inj_tail in E as [_ E]. congruence.
  - change [")"%char; "010"%char] with ([")"%char] ++ ["010"%char]) in E.
    rewrite app_assoc in E. apply app_inj_tail in E as [_ E]. congruence.
Qed.

(** ** Decimal numbers *)

Lemma is_digit_coord c : is_digit c = true -> coord_chr c = true.
Proof.
  intros H. unfold coord_chr, in_set, coord_set. simpl.
  rewrite H. rewrite orb_true_r. reflexivity.
Qed.

Lemma digits_coord s : forallb is_digit s = true -> forallb coord_chr s = true.
Proof.
  induction s as [|c s IH]; simpl; [reflexivity|].
  rewrite !andb_true_iff. intros [Hc Hs]. auto using is_digit_coord.
Qed.

Lemma span_digits_spec s :
  s = fst (span_digits s) ++ snd (span_digits s) /\
  forallb is_digit (fst (span_digits s)) = true /\
  stops is_digit (snd (span_digits s)) = true.
Proof.
  induction s as [|c s IH]; simpl; [auto|].
  destruct (is_digit c) eqn:Hc.
  - destruct (span_digits s) as [d r]. simpl in *.
    destruct IH as (E & Hd & Hr). rewrite Hc. rewrite <- E. auto.
  - simpl. rewrite Hc. auto.
Qed.

Lemma span_digits_all s :
  forallb is_digit s = true -> span_digits s = (s, []).
Proof.
  induction s as [|c s IH]; simpl; [reflexivity|].
  rewrite andb_true_iff. intros [Hc Hs]. rewrite Hc, (IH Hs). reflexivity.
Qed.

Lemma read_digits_span s : forall acc n,
  exists m,
    read_digits acc n s
    = (m, n + List.length (fst (span_digits s)), snd (span_digits s)).
Proof.
  induction s as [|c s IH]; intros acc n; cbn [read_digits span_digits].
  - exists acc. cbn [fst snd List.length]. rewrite Nat.add_0_r. reflexivity.
  - destruct (is_digit c).
    + destruct (IH (10 * acc + (N_of_ascii c - 48))%N (S n)) as [m Hm].
      exists m. rewrite Hm. destruct (span_digits s) as [d r].
      cbn [fst snd List.length]. rewrite Nat.add_succ_r. reflexivity.
    + exists acc. cbn [fst snd List.length]. rewrite Nat.add_0_r. reflexivity.
Qed.

(** [float] accepts every unsigned decimal. *)
Lemma float_digits_accepts neg s :
  unsigned_decimal s = true -> exists d, float_digits neg s = Some d.
Proof.
  unfold unsigned_decimal, float_digits. intros H.
  destruct (read_digits_span s 0%N 0) as [m1 ->].
  destruct (span_digits s) as [ip r]. simpl.
  destruct r as [|c fp].
  - destruct ip; [discriminate|]. simpl. eauto.
  - apply andb_true_iff in H as [H Hne]. apply andb_true_iff in H as [Hc Hfp].
    rewrite Hc.
    destruct (read_digits_span fp m1 0) as [m2 ->].
    rewrite (span_digits_all _ Hfp). simpl.
    destruct ip as [|a ip]; simpl; [|eauto].
    destruct fp as [|b fp]; [discriminate|]. simpl. eauto.
Qed.

Lemma unsigned_decimal_chars s :
  unsigned_decimal s = true -> s <> [] /\ forallb coord_chr s = true.
Proof.
  unfold unsigned_decimal. intros H.
  destruct (span_digits_spec s) as (E & Hip & _).
  destruct (span_digits s) as [ip r]. simpl in *. subst s.
  destruct r as [|c fp].
  - rewrite app_nil_r. split; [|auto using digits_coord].
    destruct ip; [discriminate|discriminate].
  - apply andb_true_iff in H as [H _]. apply andb_true_iff in H as [Hc Hfp].
    apply chr_eqb_eq in Hc as ->. split.
    + destruct ip; discriminate.
    + rewrite forallb_app. simpl.
      rewrite (digits_coord _ Hip), (digits_coord _ Hfp). reflexivity.
Qed.

Lemma signed_decimal_chars x :
  signed_decimal x = true -> x <> [] /\ forallb coord_chr x = true.
Proof.
  destruct x as [|c r]; simpl; [discriminate|].
  destruct (chr_eqb c "-") eqn:Ec.
  - apply chr_eqb_eq in Ec as ->. intros H.
    apply unsigned_decimal_chars in H as [_ H].
    split; [discriminate|]. simpl. exact H.
  - intros H. apply unsigned_decimal_chars in H. exact H.
Qed.

Lemma signed_decimal_parse x :
  signed_decimal x = true -> exists v, parse_decimal x = Some v.
Proof.
  destruct x as [|c r]; simpl; [discriminate|].
  destruct (chr_eqb c "-"); apply float_digits_accepts.
Qed.

Lemma signed_decimal_float x :
  signed_decimal x = true -> exists d, py_float x = Some d.
Proof.
  intros H. destruct (signed_decimal_parse _ H) as [v Hv].
  unfold py_float. rewrite Hv. simpl. eauto.
Qed.

(** ** Column operations *)

Lemma mapM_ok {A B} (f : A -> result B) l : forall l',
  mapM f l = Ok l' -> Forall2 (fun x y => f x = Ok y) l l'.
Proof.
  induction l as [|x l IH]; intros l' H; simpl in H.
  - injection H as <-. constructor.
  - destruct (f x) as [y|e] eqn:Hx; simpl in H; [|discriminate].
    destruct (mapM f l) as [ys|e] eqn:Hl; simpl in H; [|discriminate].
    injection H as <-. constructor; auto.
Qed.

Lemma mapM_raise_in {A B} (f : A -> result B) l x e :
  In x l -> f x = Raise e -> exists e', mapM f l = Raise e'.
Proof.
  induction l as [|a l IH]; intros Hin Hx; [contradiction|].
  simpl. destruct Hin as [-> | Hin].
  - rewrite Hx. simpl. eauto.
  - destruct (f a); simpl; [|eauto].
    destruct (IH Hin Hx) as [e' ->]. simpl. eauto.
Qed.

Lemma mapM_raise_value {A B} (f : A -> result B) l :
  (forall x e, f x = Raise e -> e = ValueError) ->
  forall e, mapM f l = Raise e -> e = ValueError.
Proof.
  intros Hf. induction l as [|a l IH]; intros e H; simpl in H; [discriminate|].
  destruct (f a) as [y|e0] eqn:Ha; simpl in H.
  - destruct (mapM f l) as [ys|e1]; simpl in H; [discriminate|].
    injection H as <-. apply IH. reflexivity.
  - injection H as <-. eapply Hf; eauto.
Qed.

Lemma astype_float_raise c e : astype_float c = Raise e -> e = ValueError.
Proof.
  destruct c as [t|]; simpl; [|discriminate].
  destruct (py_float t); [discriminate|congruence].
Qed.

Section CleaningFacts.

Variable py_int : text -> option Z.

(** Case analysis on the next conversion that is sequenced in the goal. *)
Ltac split_bind :=
  let H := fresh "H" in
  match goal with
  | |- context [bind (astype_int ?p ?c) _] =>
      destruct (astype_int p c) as [?|?] eqn:H
  | |- context [bind (astype_float ?c) _] =>
      destruct (astype_float c) as [?|?] eqn:H
  | |- context [bind (mapM (astype_int ?p) ?l) _] =>
      destruct (mapM (astype_int p) l) as [?|?] eqn:H
  | |- context [bind (mapM astype_float ?l) _] =>
      destruct (mapM astype_float l) as [?|?] eqn:H
  end; cbn [bind ok_of] in *.

(** Working column by column or row by row completes on the same tables,
    with the same result. *)
Lemma clean_columns_rowwise df :
  ok_of (clean_columns py_int df) = ok_of (mapM (clean_row py_int) df).
Proof.
  induction df as [|r df IH]; [reflexivity|].
  cbn [mapM].
  destruct (mapM (clean_row py_int) df) as [rs|e];
    unfold clean_columns, clean_row, clean_location in *;
    cbn [map mapM ok_of] in *;
    repeat split_bind;
    try reflexivity; try discriminate;
    cbn [assemble fst snd]; injection IH as <-; reflexivity.
Qed.

Lemma clean_ok_iff df rows :
  clean py_int df = Ok rows <->
  str_accessor (map raw_vehicle_location df) = Ok tt /\
  mapM (clean_row py_int) df = Ok rows.
Proof.
  assert (E : clean py_int df = Ok rows <->
              str_accessor (map raw_vehicle_location df) = Ok tt /\
              clean_columns py_int df = Ok rows).
  { unfold clean, clean_columns.
    destruct (mapM (astype_int py_int) (map raw_model_year df)); cbn [bind];
      [|split; [discriminate | intros [_ H]; discriminate]].
    destruct (mapM (astype_int py_int) (map fillna0 (map raw_electric_range df)));
      cbn [bind]; [|split; [discriminate | intros [_ H]; discriminate]].
    destruct (mapM (astype_int py_int) (map fillna0 (map raw_base_msrp df)));
      cbn [bind]; [|split; [discriminate | intros [_ H]; discriminate]].
    destruct (str_accessor (map raw_vehicle_location df)) as [[]|e]; cbn [bind].
    - tauto.
    - split; [discriminate | intros [H _]; discriminate]. }
  rewrite E. pose proof (clean_columns_rowwise df) as R.
  destruct (clean_columns py_int df); destruct (mapM (clean_row py_int) df);
    simpl in R; try discriminate.
  - injection R as ->. tauto.
  - split; intros [_ H]; discriminate.
Qed.

Lemma clean_ok_rows df rows :
  clean py_int df = Ok rows ->
  Forall2 (fun r r' => clean_row py_int r = Ok r') df rows.
Proof. intros H. apply clean_ok_iff in H as [_ H]. apply mapM_ok. exact H. Qed.

End CleaningFacts.

(** ** Distinct values, sorting and counting *)

Lemma filter_id {A} (f : A -> bool) l :
  (forall x, In x l -> f x = true) -> filter f l = l.
Proof.
  induction l as [|a l IH]; intros H; simpl; [reflexivity|].
  rewrite (H a (or_introl eq_refl)). f_equal. apply IH.
  intros x Hx. apply H. right. exact Hx.
Qed.

Lemma filter_idem {A} (f : A -> bool) l : filter f (filter f l) = filter f l.
Proof.
  apply filter_id. intros x Hx. apply filter_In in Hx. tauto.
Qed.

Lemma filter_subseq {A} (f : A -> bool) l : subseq (filter f l) l.
Proof.
  induction l as [|a l IH]; simpl; [constructor|].
  destruct (f a); constructor; exact IH.
Qed.

Section Keys.

Variable A : Type.
Variable eqb leb : A -> A -> bool.
Hypothesis eqb_eq : forall a b, eqb a b = true <-> a = b.

Lemma eqb_refl' a : eqb a a = true.
Proof. apply eqb_eq. reflexivity. Qed.

Lemma isin_In x l : isin eqb x l = true <-> In x l.
Proof.
  unfold isin. rewrite existsb_exists. split.
  - intros (y & Hy & E). apply eqb_eq in E as ->. exact Hy.
  - intros H. exists x. split; [exact H | apply eqb_refl'].
Qed.

Lemma unique_In x l : In x (unique eqb l) <-> In x l.
Proof.
  induction l as [|a l IH]; simpl; [tauto|].
  rewrite filter_In, IH. split.
  - tauto.
  - intros [-> | H]; [tauto|].
    destruct (eqb x a) eqn:E.
    + apply eqb_eq in E. auto.
    + right. split; [exact H | reflexivity].
Qed.

Lemma unique_NoDup l : NoDup (unique eqb l).
Proof.
  induction l as [|a l IH]; simpl; constructor.
  - rewrite filter_In, eqb_refl'. simpl. intros [_ H]. discriminate.
  - apply NoDup_filter. exact IH.
Qed.

Lemma insert_sorted_perm x l : Permutation (insert_sorted leb x l) (x :: l).
Proof.
  induction l as [|a l IH]; simpl; [reflexivity|].
  destruct (leb x a); [reflexivity|].
  rewrite IH. apply perm_swap.
Qed.

Lemma sorted_perm l : Permutation (sorted leb l) l.
Proof.
  induction l as [|a l IH]; simpl; [constructor|].
  rewrite insert_sorted_perm. constructor. exact IH.
Qed.

(** Every value of a column is among the options built from it. *)
Lemma options_cover x l : In x l -> isin eqb x (sorted leb (unique eqb l)) = true.
Proof.
  intros H. apply isin_In.
  apply (Permutation_in x (Permutation_sym (sorted_perm (unique eqb l)))).
  apply unique_In. exact H.
Qed.

Lemma total_perm {B} (g : B -> nat) l1 l2 :
  Permutation l1 l2 -> total g l1 = total g l2.
Proof.
  unfold total. induction 1; simpl; lia.
Qed.

Lemma total_add (g h : A -> nat) u :
  total (fun k => g k + h k) u = total g u + total h u.
Proof.
  unfold total. induction u as [|a u IH]; simpl; lia.
Qed.

Lemma total_zero (g : A -> nat) u :
  (forall k, In k u -> g k = 0) -> total g u = 0.
Proof.
  unfold total. induction u as [|a u IH]; intros H; simpl; [reflexivity|].
  rewrite (H a (or_introl eq_refl)), IH; [reflexivity|].
  intros k Hk. apply H. right. exact Hk.
Qed.

(** Among distinct keys exactly one equals a key that is present. *)
Lemma total_indicator x u :
  NoDup u -> In x u -> total (fun k => if eqb k x then 1 else 0) u = 1.
Proof.
  induction 1 as [|a u Hna Hnd IH]; intros Hin; [contradiction|].
  unfold total in *. simpl. destruct Hin as [-> | Hin].
  - rewrite eqb_refl'.
    fold (total (fun k => if eqb k x then 1 else 0) u).
    rewrite total_zero; [reflexivity|].
    intros k Hk. destruct (eqb k x) eqn:E; [|reflexivity].
    apply eqb_eq in E as ->. contradiction.
  - destruct (eqb a x) eqn:E.
    + apply eqb_eq in E as ->. contradiction.
    + simpl. apply IH. exact Hin.
Qed.

Lemma count_cons k x l :
  count eqb k (x :: l) = (if eqb k x then 1 else 0) + count eqb k l.
Proof.
  unfold count. simpl. destruct (eqb k x); reflexivity.
Qed.

(** The sizes of the groups over any list of distinct keys that covers
    the column add up to the length of the column. *)
Lemma total_count u l :
  NoDup u -> (forall x, In x l -> In x u) ->
  total (fun k => count eqb k l) u = List.length l.
Proof.
  intros Hnd. induction l as [|x l IH]; intros Hcov.
  - apply total_zero. reflexivity.
  - transitivity (total (fun k => (if eqb k x then 1 else 0) + count eqb k l) u).
    + unfold total. f_equal. apply map_ext. intros k. apply count_cons.
    + rewrite total_add, total_indicator, IH; simpl; auto.
      * intros y Hy. apply Hcov. right. exact Hy.
      * apply Hcov. left. reflexivity.
Qed.

Lemma groupby_size_total l :
  sum_counts (groupby_size eqb leb l) = List.length l.
Proof.
  unfold sum_counts, groupby_size. rewrite map_map. simpl.
  change (total (fun k => count eqb k l) (sorted leb (unique eqb l))
          = List.length l).
  apply total_count.
  - apply (Permutation_NoDup (Permutation_sym (sorted_perm (unique eqb l)))).
    apply unique_NoDup.
  - intros x Hx.
    apply (Permutation_in x (Permutation_sym (sorted_perm (unique eqb l)))).
    apply unique_In. exact Hx.
Qed.

End Keys.

Lemma Z_eqb_eq (a b : Z) : Z.eqb a b = true <-> a = b.
Proof. apply Z.eqb_eq. Qed.

Lemma coord_last_not_close u c :
  forallb coord_chr (u ++ [c]) = true -> c <> ")"%char /\ c <> "010"%char.
Proof.
  rewrite forallb_app. simpl. rewrite andb_true_r, andb_true_iff.
  intros [_ Hc]. split; intros ->; discriminate.
Qed.

(** ** Geometry strings *)

Lemma lon_search_point x rest :
  x <> [] -> forallb coord_chr x = true -> stops coord_chr rest = true ->
  search LON_PATTERN (lit "POINT (" ++ x ++ rest) = Some (Some x).
Proof.
  intros. apply search_here. apply lon_match; assumption.
Qed.

Lemma lat_search_point x y :
  forallb coord_chr x = true -> y <> [] -> forallb coord_chr y = true ->
  search LAT_PATTERN (wkt_point x y) = Some (Some y).
Proof.
  intros Hx Hne Hy. unfold wkt_point, lit. cbn [list_ascii_of_string app].
  rewrite !lat_skip_chr by reflexivity.
  rewrite lat_skip_run; [|assumption|reflexivity|discriminate].
  apply search_here. apply lat_match; assumption.
Qed.

(** The rounding of a quotient picks a nearest integer: no integer is
    closer to [a / b] than [round_half_even a b]. *)
Lemma round_half_even_nearest (a b k : Z) :
  (0 < b)%Z ->
  (2 * Z.abs (a - round_half_even a b * b) <= b)%Z /\
  (Z.abs (a - round_half_even a b * b) <= Z.abs (a - k * b))%Z.
Proof.
  intros Hb. unfold round_half_even.
  pose proof (Z.div_mod a b ltac:(lia)) as E.
  pose proof (Z.mod_pos_bound a b Hb) as B.
  set (q := (a / b)%Z) in *. set (r := (a mod b)%Z) in *.
  assert (Hk : (k <= q \/ q + 1 <= k)%Z) by lia.
  destruct (Z.ltb_spec (2 * r) b); [|destruct (Z.ltb_spec b (2 * r));
    [|destruct (Z.even q)]]; split; try nia.
Qed.

Lemma scale_den_pos d e : (0 < d)%Z -> (0 < scale_den d e)%Z.
Proof.
  intros H. unfold scale_den.
  pose proof (Z.pow_pos_nonneg 2 (Z.max 0 e) ltac:(lia) ltac:(lia)). nia.
Qed.

Lemma scale_step n d e :
  (scale_num n (e - 1) = 2 * scale_num n e /\
   scale_den d (e - 1) = scale_den d e)%Z \/
  (scale_num n (e - 1) = scale_num n e /\
   scale_den d e = 2 * scale_den d (e - 1))%Z.
Proof.
  unfold scale_num, scale_den.
  destruct (Z_le_gt_dec e 0) as [H|H].
  - left. rewrite !Z.max_r by lia.
    replace (Z.max 0 (e - 1)) with 0%Z by lia.
    replace (Z.max 0 e) with 0%Z by lia.
    replace (- (e - 1))%Z with (Z.succ (- e)) by lia.
    rewrite Z.pow_succ_r by lia. split; [ring|reflexivity].
  - right. rewrite !Z.max_l by lia.
    replace (Z.max 0 (e - 1)) with (e - 1)%Z by lia.
    replace (Z.max 0 e) with (Z.succ (e - 1)) by lia.
    rewrite Z.pow_succ_r by lia. split; [reflexivity|ring].
Qed.

Lemma ratio_upper n d e k :
  (0 < n)%Z -> (0 < d)%Z -> (0 <= k)%Z ->
  (Z.log2 n - Z.log2 d + 1 <= k + e)%Z ->
  (scale_num n e < 2 ^ k * scale_den d e)%Z.
Proof.
  intros Hn Hd Hk H.
  destruct (Z.log2_spec n Hn) as [_ Un].
  destruct (Z.log2_spec d Hd) as [Ld _].
  pose proof (Z.log2_nonneg n) as Pn. pose proof (Z.log2_nonneg d) as Pd.
  unfold scale_num, scale_den.
  destruct (Z_le_gt_dec 0 e) as [He|He].
  - rewrite (Z.max_l 0 (- e)) by lia. rewrite (Z.max_r 0 e) by lia.
    assert (M : (2 ^ Z.succ (Z.log2 n) <= 2 ^ (k + e + Z.log2 d))%Z)
      by (apply Z.pow_le_mono_r; lia).
    rewrite !Z.pow_add_r in M by lia.
    pose proof (Z.pow_pos_nonneg 2 k ltac:(lia) Hk).
    pose proof (Z.pow_pos_nonneg 2 e ltac:(lia) He).
    simpl (2 ^ 0)%Z.
    assert (2 ^ k * 2 ^ e * 2 ^ Z.log2 d <= 2 ^ k * 2 ^ e * d)%Z by nia.
    nia.
  - rewrite (Z.max_r 0 (- e)) by lia. rewrite (Z.max_l 0 e) by lia.
    assert (M : (2 ^ (Z.succ (Z.log2 n) + - e) <= 2 ^ (k + Z.log2 d))%Z)
      by (apply Z.pow_le_mono_r; lia).
    rewrite !Z.pow_add_r in M by lia.
    pose proof (Z.pow_pos_nonneg 2 k ltac:(lia) Hk).
    pose proof (Z.pow_pos_nonneg 2 (- e) ltac:(lia) ltac:(lia)).
    simpl (2 ^ 0)%Z.
    assert (n * 2 ^ (- e) < 2 ^ Z.succ (Z.log2 n) * 2 ^ (- e))%Z by nia.
    assert (2 ^ k * 2 ^ Z.log2 d <= 2 ^ k * d)%Z by nia.
    nia.
Qed.

Lemma ratio_lower n d e k :
  (0 < n)%Z -> (0 < d)%Z -> (0 <= k)%Z ->
  (k + e <= Z.log2 n - Z.log2 d - 1)%Z ->
  (2 ^ k * scale_den d e < scale_num n e)%Z.
Proof.
  intros Hn Hd Hk H.
  destruct (Z.log2_spec n Hn) as [Ln _].
  destruct (Z.log2_spec d Hd) as [_ Ud].
  pose proof (Z.log2_nonneg n) as Pn. pose proof (Z.log2_nonneg d) as Pd.
  unfold scale_num, scale_den.
  destruct (Z_le_gt_dec 0 e) as [He|He].
  - rewrite (Z.max_l 0 (- e)) by lia. rewrite (Z.max_r 0 e) by lia.
    assert (M : (2 ^ (k + e + Z.succ (Z.log2 d)) <= 2 ^ Z.log2 n)%Z)
      by (apply Z.pow_le_mono_r; lia).
    rewrite !Z.pow_add_r in M by lia.
    pose proof (Z.pow_pos_nonneg 2 k ltac:(lia) Hk).
    pose proof (Z.pow_pos_nonneg 2 e ltac:(lia) He).
    simpl (2 ^ 0)%Z.
    assert (2 ^ k * 2 ^ e * d < 2 ^ k * 2 ^ e * 2 ^ Z.succ (Z.log2 d))%Z by nia.
    nia.
  - rewrite (Z.max_r 0 (- e)) by lia. rewrite (Z.max_l 0 e) by lia.
    assert (M : (2 ^ (k + Z.succ (Z.log2 d)) <= 2 ^ (Z.log2 n + - e))%Z)
      by (apply Z.pow_le_mono_r; lia).
    rewrite !Z.pow_add_r in M by lia.
    pose proof (Z.pow_pos_nonneg 2 k ltac:(lia) Hk).
    pose proof (Z.pow_pos_nonneg 2 (- e) ltac:(lia) ltac:(lia)).
    simpl (2 ^ 0)%Z.
    assert (2 ^ k * d < 2 ^ k * 2 ^ Z.succ (Z.log2 d))%Z by nia.
    assert (2 ^ Z.log2 n * 2 ^ (- e) <= n * 2 ^ (- e))%Z by nia.
    nia.
Qed.

Lemma round_half_even_bounds a b :
  (0 <= a)%Z -> (0 < b)%Z ->
  (0 <= round_half_even a b)%Z /\
  (2 * Z.abs (a - round_half_even a b * b) <= b)%Z.
Proof.
  intros Ha Hb. split; [|apply (round_half_even_nearest a 0 Hb)].
  unfold round_half_even. pose proof (Z.div_pos a b Ha Hb).
  destruct (2 * (a mod b) <? b)%Z; [lia|].
  destruct (b <? 2 * (a mod b))%Z; [lia|].
  destruct (Z.even (a / b)); lia.
Qed.


(** How [round_ratio] proceeds on a positive quotient: the exponent [e1] it
    settles on puts the quotient below [2^53], and at [2^52] or above
    unless [e1] is the least exponent. *)
Lemma round_ratio_inv neg n d :
  (0 < n)%Z -> (0 < d)%Z ->
  exists e1,
    (-1074 <= e1)%Z /\
    (scale_num n e1 < 2 ^ 53 * scale_den d e1)%Z /\
    ((2 ^ 52 * scale_den d e1 <= scale_num n e1)%Z \/ e1 = (-1074)%Z) /\
    round_ratio neg n d
    = if (round_half_even (scale_num n e1) (scale_den d e1) =? 2 ^ 53)%Z
      then if (971 <? e1 + 1)%Z then DInfinity neg
           else DFinite neg (Z.to_N (2 ^ 52)) (e1 + 1)
      else if (971 <? e1)%Z then DInfinity neg
           else DFinite neg
                  (Z.to_N (round_half_even (scale_num n e1) (scale_den d e1)))
                  e1.
Proof.
  intros Hn Hd. unfold round_ratio.
  destruct (Z.eqb_spec n 0) as [->|_]; [lia|].
  set (P52 := (2 ^ 52)%Z). set (P53 := (2 ^ 53)%Z).
  set (l := (Z.log2 n - Z.log2 d - 52)%Z).
  set (e0 := Z.max l (-1074)).
  set (c := ((scale_num n e0 / scale_den d e0 <? P52)%Z
             && (-1074 <? e0)%Z)%bool).
  set (e1 := if c then (e0 - 1)%Z else e0).
  assert (HP : P53 = (2 * P52)%Z) by reflexivity.
  assert (HP0 : (0 < P52)%Z) by reflexivity.
  pose proof (scale_den_pos e0 Hd) as D0.
  exists e1. split; [|split; [|split]].
  - unfold e1, c. destruct (Z.ltb_spec (-1074) e0);
      rewrite ?andb_false_r, ?andb_true_r.
    + destruct (_ <? _)%Z; lia.
    + unfold e0 in *. lia.
  - unfold e1, c.
    destruct (Z.ltb_spec (scale_num n e0 / scale_den d e0) P52) as [Hq|Hq];
      destruct (Z.ltb_spec (-1074) e0) as [He|He]; cbn [andb];
      try (apply ratio_upper; [assumption|assumption|lia|unfold e0, l; lia]).
    assert (Hq' : (scale_num n e0 < P52 * scale_den d e0)%Z).
    { pose proof (Z.div_mod (scale_num n e0) (scale_den d e0) ltac:(lia)).
      pose proof (Z.mod_pos_bound (scale_num n e0) (scale_den d e0) D0). nia. }
    destruct (scale_step n d e0) as [[-> ->]|[-> E]]; [lia|].
    rewrite E in Hq'. lia.
  - unfold e1, c.
    destruct (Z.ltb_spec (scale_num n e0 / scale_den d e0) P52) as [Hq|Hq];
      destruct (Z.ltb_spec (-1074) e0) as [He|He]; cbn [andb].
    + left.
      assert (L : (2 ^ 51 * scale_den d e0 < scale_num n e0)%Z).
      { apply ratio_lower; [assumption|assumption|lia|unfold e0, l in *; lia]. }
      change (2 ^ 51)%Z with 2251799813685248%Z in L.
      change P52 with 4503599627370496%Z.
      destruct (scale_step n d e0) as [[-> ->]|[-> E]]; [lia|].
      rewrite E in L. lia.
    + right. unfold e0 in *. lia.
    + left. pose proof (Z.mul_div_le (scale_num n e0) (scale_den d e0) D0). nia.
    + right. unfold e0 in *. lia.
  - destruct (_ =? P53)%Z; reflexivity.
Qed.

Lemma scale_num_nonneg n e : (0 <= n)%Z -> (0 <= scale_num n e)%Z.
Proof.
  intros H. unfold scale_num.
  pose proof (Z.pow_pos_nonneg 2 (Z.max 0 (- e)) ltac:(lia) ltac:(lia)). nia.
Qed.

(** The distance of [n / d] to a multiple of [2^e], in units of the least
    double, is the distance at the scale of [e] up to a positive factor. *)
Lemma units_scale n d e :
  (-1074 <= e)%Z ->
  exists F, (0 < F)%Z /\
    forall k, (n * 2 ^ 1074 - units k e * d
               = F * (scale_num n e - k * scale_den d e))%Z.
Proof.
  intros He. unfold units, scale_num, scale_den.
  destruct (Z_le_gt_dec 0 e) as [H|H].
  - exists (2 ^ 1074)%Z. split; [apply Z.pow_pos_nonneg; lia|].
    intros k. rewrite (Z.max_l 0 (- e)), (Z.max_r 0 e) by lia.
    rewrite Z.pow_add_r by lia. rewrite Z.pow_0_r. ring.
  - exists (2 ^ (e + 1074))%Z. split; [apply Z.pow_pos_nonneg; lia|].
    intros k. rewrite (Z.max_r 0 (- e)), (Z.max_l 0 e) by lia.
    replace 1074%Z with ((e + 1074) + - e)%Z at 1 by lia.
    rewrite Z.pow_add_r by lia. rewrite Z.pow_0_r. ring.
Qed.

(** No double is closer to [n / d] than the finite double [round_ratio]
    returns; that double has the sign asked for, a mantissa below [2^53]
    and an exponent of the range. *)
Lemma round_ratio_nearest neg n d neg' m e :
  (0 < n)%Z -> (0 < d)%Z ->
  round_ratio neg n d = DFinite neg' m e ->
  neg' = neg /\
  (Z.of_N m < 2 ^ 53)%Z /\ (-1074 <= e <= 971)%Z /\
  forall m' e',
    (0 <= m' < 2 ^ 53)%Z -> (-1074 <= e')%Z ->
    (Z.abs (n * 2 ^ 1074 - units (Z.of_N m) e * d)
     <= Z.abs (n * 2 ^ 1074 - units m' e' * d))%Z.
Proof.
  intros Hn Hd H.
  destruct (round_ratio_inv neg Hn Hd) as (e1 & He1 & Hup & Hlo & E).
  rewrite E in H. clear E.
  pose proof (scale_den_pos e1 Hd) as D1.
  pose proof (scale_num_nonneg e1 (Z.lt_le_incl _ _ Hn)) as N1.
  destruct (round_half_even_bounds N1 D1) as [M0 Mh].
  pose proof (fun k => proj2 (round_half_even_nearest (scale_num n e1) k D1))
    as Mk.
  set (m1 := round_half_even (scale_num n e1) (scale_den d e1)) in *.
  set (P52 := (2 ^ 52)%Z) in *. set (P53 := (2 ^ 53)%Z) in *.
  assert (HP : P53 = (2 * P52)%Z) by reflexivity.
  assert (HP0 : (0 < P52)%Z) by reflexivity.
  assert (Mu : (m1 <= P53)%Z) by nia.
  destruct (units_scale n d He1) as (F & HF & HU).
  (* the double returned, in units, is [m1] at the scale of [e1] *)
  assert (Hx : neg' = neg /\ (Z.of_N m < P53)%Z /\ (-1074 <= e <= 971)%Z /\
               units (Z.of_N m) e = units m1 e1).
  { destruct (Z.eqb_spec m1 P53) as [Em|Em].
    - destruct (Z.ltb_spec 971 (e1 + 1)); [discriminate|].
      injection H as <- <- <-.
      change (Z.of_N 4503599627370496) with P52.
      split; [reflexivity|]. split; [lia|]. split; [lia|].
      unfold units. rewrite Em, HP.
      replace (e1 + 1 + 1074)%Z with (Z.succ (e1 + 1074)) by lia.
      rewrite Z.pow_succ_r by lia. ring.
    - destruct (Z.ltb_spec 971 e1); [discriminate|].
      injection H as <- <- <-. rewrite Z2N.id by lia.
      split; [reflexivity|]. split; [lia|]. split; [lia|reflexivity]. }
  destruct Hx as (Hs & Hm & He & Hx).
  split; [exact Hs|]. split; [exact Hm|]. split; [exact He|].
  intros m' e' Hm' He'. rewrite Hx, (HU m1).
  rewrite Z.abs_mul, (Z.abs_eq F) by lia.
  destruct (Z_le_gt_dec e1 e') as [Hle|Hgt].
  - (* a double at a coarser scale is a multiple of [2^e1] *)
    assert (Ek : units m' e' = units (m' * 2 ^ (e' - e1)) e1).
    { unfold units. replace (e' + 1074)%Z with ((e' - e1) + (e1 + 1074))%Z by lia.
      rewrite (Z.pow_add_r 2 (e' - e1) (e1 + 1074)) by lia. ring. }
    rewrite Ek, (HU (m' * 2 ^ (e' - e1))%Z).
    rewrite Z.abs_mul, (Z.abs_eq F) by lia.
    apply Z.mul_le_mono_nonneg_l; [lia|]. apply Mk.
  - (* a double at a finer scale lies below [2^52 * 2^e1] *)
    destruct Hlo as [Hlo|Hlo]; [|lia].
    assert (Hy : (units m' e' <= units P52 e1)%Z).
    { unfold units.
      replace (e1 + 1074)%Z with ((e1 - e' - 1) + Z.succ (e' + 1074))%Z by lia.
      rewrite (Z.pow_add_r 2 (e1 - e' - 1) (Z.succ (e' + 1074))) by lia.
      rewrite Z.pow_succ_r by lia.
      pose proof (Z.pow_pos_nonneg 2 (e1 - e' - 1) ltac:(lia) ltac:(lia)).
      pose proof (Z.pow_pos_nonneg 2 (e' + 1074) ltac:(lia) ltac:(lia)).
      nia. }
    pose proof (HU P52) as H52. pose proof (Mk P52) as M52.
    rewrite (Z.abs_eq (scale_num n e1 - P52 * scale_den d e1)) in M52 by lia.
    assert (G : (F * Z.abs (scale_num n e1 - m1 * scale_den d e1)
                 <= n * 2 ^ 1074 - units P52 e1 * d)%Z).
    { rewrite H52. apply Z.mul_le_mono_nonneg_l; [lia | exact M52]. }
    assert (G' : (units m' e' * d <= units P52 e1 * d)%Z)
      by (apply Z.mul_le_mono_nonneg_r; lia).
    lia.
Qed.

(** [round_ratio] returns an infinity only from halfway between the
    largest double and [2^1024] on. *)
Lemma round_ratio_overflow neg n d neg' :
  (0 < n)%Z -> (0 < d)%Z ->
  round_ratio neg n d = DInfinity neg' ->
  neg' = neg /\ ((2 ^ 54 - 1) * 2 ^ 970 * d <= n)%Z.
Proof.
  intros Hn Hd H.
  destruct (round_ratio_inv neg Hn Hd) as (e1 & He1 & Hup & Hlo & E).
  rewrite E in H. clear E.
  pose proof (scale_den_pos e1 Hd) as D1.
  pose proof (scale_num_nonneg e1 (Z.lt_le_incl _ _ Hn)) as N1.
  destruct (round_half_even_bounds N1 D1) as [M0 Mh].
  set (m1 := round_half_even (scale_num n e1) (scale_den d e1)) in *.
  assert (He : (971 <= e1)%Z /\ neg' = neg /\ (m1 = 2 ^ 53 \/ 972 <= e1)%Z).
  { destruct (Z.eqb_spec m1 (2 ^ 53)) as [Em|Em].
    - destruct (Z.ltb_spec 971 (e1 + 1)); [|discriminate].
      injection H as <-. split; [lia|]. split; [reflexivity | left; exact Em].
    - destruct (Z.ltb_spec 971 e1); [|discriminate].
      injection H as <-. split; [lia|]. split; [reflexivity | right; lia]. }
  destruct He as (He & Hs & Hc). split; [exact Hs|].
  unfold scale_num, scale_den in *.
  rewrite (Z.max_l 0 (- e1)), (Z.max_r 0 e1) in * by lia.
  rewrite Z.pow_0_r, Z.mul_1_r in *.
  set (P52 := (2 ^ 52)%Z) in *. set (P53 := (2 ^ 53)%Z) in *.
  assert (HP : P53 = (2 * P52)%Z) by reflexivity.
  assert (HP0 : (0 < P52)%Z) by reflexivity.
  change (2 ^ 54 - 1)%Z with (4 * P52 - 1)%Z.
  set (A := (2 ^ 970)%Z).
  assert (HA : (0 < A)%Z) by (apply Z.pow_pos_nonneg; lia).
  destruct Hc as [Hc|Hc].
  - assert (X : (2 * A <= 2 ^ e1)%Z).
    { replace e1 with ((e1 - 971) + Z.succ 970)%Z by lia.
      rewrite Z.pow_add_r, Z.pow_succ_r by lia. fold A.
      pose proof (Z.pow_pos_nonneg 2 (e1 - 971) ltac:(lia) ltac:(lia)). nia. }
    rewrite Hc in Mh. nia.
  - destruct Hlo as [Hlo|Hlo]; [|lia].
    assert (X : (4 * A <= 2 ^ e1)%Z).
    { replace e1 with ((e1 - 972) + Z.succ (Z.succ 970))%Z by lia.
      rewrite Z.pow_add_r, !Z.pow_succ_r by lia. fold A.
      pose proof (Z.pow_pos_nonneg 2 (e1 - 972) ltac:(lia) ltac:(lia)). nia. }
    nia.
Qed.

Lemma double_of_decimal_nearest (v : decimal) :
  nearest_double v (double_of_decimal v).
Proof.
  unfold nearest_double, double_of_decimal.
  assert (Hd : (0 < 10 ^ Z.of_nat (dscale v))%Z)
    by (apply Z.pow_pos_nonneg; lia).
  destruct (Z.eq_dec (Z.of_N (dmant v)) 0) as [E0|E0].
  - rewrite E0. unfold round_ratio. cbn [Z.eqb].
    split; [reflexivity|]. split; [reflexivity|]. split; [lia|].
    intros m' e' _ _. unfold units. cbn [Z.of_N Z.mul Z.sub Z.opp Z.add Z.abs].
    apply Z.abs_nonneg.
  - assert (Hn : (0 < Z.of_N (dmant v))%Z) by lia.
    destruct (round_ratio (dneg v) (Z.of_N (dmant v)) (10 ^ Z.of_nat (dscale v)))
      as [neg m e | neg] eqn:E.
    + apply (round_ratio_nearest _ Hn Hd E).
    + apply (round_ratio_overflow _ Hn Hd E).
Qed.

(** The claim C1 as stated fails on a number that is not a double: the
    longitude stored for [9007199254740993] is [9007199254740992]. *)
Lemma C1_counterexample :
  ~ (forall x y,
       signed_decimal x = true -> signed_decimal y = true ->
       exists dx dy vx vy qx qy,
         clean_location (Some (wkt_point x y)) = Ok (Fl dx, Fl dy) /\
         parse_decimal x = Some vx /\ parse_decimal y = Some vy /\
         double_value dx = Some qx /\ double_value dy = Some qy /\
         (qx == decimal_value vx)%Q /\ (qy == decimal_value vy)%Q).
Proof.
  intros H.
  destruct (H (lit "9007199254740993") (lit "0") eq_refl eq_refl)
    as (dx & dy & vx & vy & qx & qy & Hc & Hx & _ & Hq & _ & E & _).
  vm_compute in Hc. injection Hc as <- <-.
  vm_compute in Hx. injection Hx as <-.
  vm_compute in Hq. injection Hq as <-.
  vm_compute in E. discriminate.
Qed.

(** C1 (amended). For every geometry string [POINT (x y)] with [x] and [y]
    signed decimal numbers, the cleaning step stores as longitude the
    double nearest to [x] and as latitude the double nearest to [y], ties
    to even, as [float] gives them: no double is closer to the number
    written. *)
Theorem C1_point_round_trip (x y : text) :
  signed_decimal x = true -> signed_decimal y = true ->
  exists vx vy,
    parse_decimal x = Some vx /\ parse_decimal y = Some vy /\
    clean_location (Some (wkt_point x y))
    = Ok (Fl (double_of_decimal vx), Fl (double_of_decimal vy)) /\
    nearest_double vx (double_of_decimal vx) /\
    nearest_double vy (double_of_decimal vy).
Proof.
  intros Sx Sy.
  destruct (signed_decimal_parse _ Sx) as [vx Fx].
  destruct (signed_decimal_parse _ Sy) as [vy Fy].
  destruct (signed_decimal_chars _ Sx) as [Nx Cx].
  destruct (signed_decimal_chars _ Sy) as [Ny Cy].
  exists vx, vy.
  split; [exact Fx|]. split; [exact Fy|].
  split; [|split; apply double_of_decimal_nearest].
  unfold clean_location, str_extract.
  rewrite (lat_search_point x Cx Ny Cy).
  unfold wkt_point. rewrite (lon_search_point (lit " " ++ y ++ lit ")") Nx Cx eq_refl).
  unfold astype_float, py_float. rewrite Fx, Fy. reflexivity.
Qed.

(** The input ["POINT (-122.33 47.61)"] yields the doubles nearest to
    -122.33 and 47.61, [-0x1.e951eb851eb85p+6] and [0x1.7ce147ae147aep+5],
    which print as -122.33 and 47.61. *)
Lemma C1_point_round_trip_witness :
  clean_location (Some (lit "POINT (-122.33 47.61)"))
  = Ok (Fl (DFinite true 8608208475253637 (-46)),
        Fl (DFinite false 6700511820597166 (-47))).
Proof.
  destruct (C1_point_round_trip (lit "-122.33") (lit "47.61") eq_refl eq_refl)
    as (vx & vy & Hx & Hy & H & _).
  vm_compute in Hx, Hy.
  injection Hx as <-. injection Hy as <-. exact H.
Defined.

(** Known doubles: 0.1, the least subnormal, a tie rounded to even, the
    largest double and the overflow past it. *)
Example double_of_decimal_examples :
  double_of_decimal (Dec false 1 1) = DFinite false 7205759403792794 (-56) /\
  double_of_decimal (Dec false 5 324) = DFinite false 1 (-1074) /\
  double_of_decimal (Dec false 9007199254740993 0)
  = DFinite false 4503599627370496 1 /\
  double_of_decimal (Dec false (17976931348623157 * 10 ^ 292) 0)
  = DFinite false 9007199254740991 971 /\
  double_of_decimal (Dec true (10 ^ 400) 0) = DInfinity true.
Proof. repeat split; vm_compute; reflexivity. Qed.

(** C2. With an empty manufacturer selection the filter returns no row,
    and line 140 then evaluates [int(nan)], which raises [ValueError]: the
    average-mileage tile fails, and with it the page. *)
Theorem C2_empty_selection_raises (float_mean : list Z -> Q)
        (df : list row) (year : list Z) :
  df_filter df year [] = [] /\
  avg_mileage float_mean (df_filter df year []) = Raise ValueError /\
  render float_mean (df_filter df year []) = Raise ValueError.
Proof.
  assert (E : df_filter df year [] = []).
  { unfold df_filter. induction df as [|r df IH]; simpl; [reflexivity|].
    rewrite andb_false_r. exact IH. }
  rewrite E. repeat split.
Qed.

Lemma lat_search_unclosed x y :
  y <> [] -> forallb coord_chr y = true ->
  search LAT_PATTERN (unclosed_point x y) = None.
Proof.
  intros Hne Hy. unfold unclosed_point.
  destruct (exists_last Hne) as (u & c & ->).
  destruct (coord_last_not_close _ _ Hy) as [Hp Hn].
  rewrite !app_assoc. apply lat_search_none; assumption.
Qed.

Lemma clean_keeps_rows py_int raw rows :
  clean py_int raw = Ok rows ->
  List.length rows = List.length raw /\
  map vehicle_location rows = map raw_vehicle_location raw.
Proof.
  intros H. apply clean_ok_rows in H.
  induction H as [|r r' raw rows Hr _ IH]; [auto|].
  destruct IH as [IH1 IH2]. simpl. rewrite IH1, IH2. split; [reflexivity|].
  f_equal. unfold clean_row in Hr.
  destruct (astype_int py_int (raw_model_year r)); [|discriminate].
  destruct (astype_int py_int (fillna0 (raw_electric_range r))); [|discriminate].
  destruct (astype_int py_int (fillna0 (raw_base_msrp r))); [|discriminate].
  destruct (clean_location (raw_vehicle_location r)); [|discriminate].
  simpl in Hr. injection Hr as <-. reflexivity.
Qed.

Lemma lat_search_comma x y :
  forallb coord_chr x = true -> y <> [] -> forallb coord_chr y = true ->
  search LAT_PATTERN (comma_point x y) = Some (Some y).
Proof.
  intros Hx Hne Hy. unfold comma_point, lit. cbn [list_ascii_of_string app].
  rewrite !lat_skip_chr by reflexivity.
  rewrite lat_skip_run; [|assumption|reflexivity|discriminate].
  rewrite lat_skip_chr by reflexivity.
  apply search_here. apply lat_match; assumption.
Qed.

(** The claim C3 as stated fails even when read as "at least one
    coordinate is NaN": a malformed string in which both patterns find a
    match keeps both coordinates. *)
Lemma C3_counterexample :
  ~ (forall s,
       malformed s = true ->
       exists lon lat,
         clean_location (Some s) = Ok (lon, lat) /\ (lon = NaN \/ lat = NaN)).
Proof.
  intros H.
  destruct (H (lit "POINT (-122.33, 47.61)") eq_refl) as (lon & lat & E & D).
  vm_compute in E. injection E as <- <-.
  destruct D; discriminate.
Qed.

(** A malformed string whose longitude text is not a number stops the
    cleaning step. *)
Example malformed_may_raise :
  malformed (lit "POINT (1.2.3 4)") = true /\
  clean_location (Some (lit "POINT (1.2.3 4)")) = Raise ValueError.
Proof. split; reflexivity. Qed.

(** C3 (amended). A coordinate whose pattern finds no match in the geometry
    string is NaN and its conversion raises nothing; when neither pattern
    matches, both are NaN.  A coordinate whose pattern does find a number
    keeps it, also in a malformed string: [POINT (x y] without the closing
    parenthesis has latitude NaN and longitude [float(x)], and
    [POINT (x, y)] has both.  Cleaning drops no row: when it completes, the
    table has one row per input row, each with its geometry string. *)
Theorem C3_unmatched_coordinate_is_nan (s : text) :
  (search LON_PATTERN s = None ->
   astype_float (str_extract LON_PATTERN (Some s)) = Ok NaN) /\
  (search LAT_PATTERN s = None ->
   astype_float (str_extract LAT_PATTERN (Some s)) = Ok NaN) /\
  (search LON_PATTERN s = None -> search LAT_PATTERN s = None ->
   clean_location (Some s) = Ok (NaN, NaN)) /\
  (forall x y,
     s = unclosed_point x y ->
     signed_decimal x = true -> signed_decimal y = true ->
     exists dx,
       py_float x = Some dx /\ clean_location (Some s) = Ok (Fl dx, NaN)) /\
  (forall x y,
     s = comma_point x y ->
     signed_decimal x = true -> signed_decimal y = true ->
     exists dx dy,
       py_float x = Some dx /\ py_float y = Some dy /\
       clean_location (Some s) = Ok (Fl dx, Fl dy)) /\
  (forall py_int raw rows,
     clean py_int raw = Ok rows ->
     List.length rows = List.length raw /\
     map vehicle_location rows = map raw_vehicle_location raw).
Proof.
  repeat split.
  - intros H. simpl. rewrite H. reflexivity.
  - intros H. simpl. rewrite H. reflexivity.
  - intros H1 H2. unfold clean_location. simpl. rewrite H1, H2. reflexivity.
  - intros x y -> Sx Sy.
    destruct (signed_decimal_float _ Sx) as [dx Fx].
    destruct (signed_decimal_chars _ Sx) as [Nx Cx].
    destruct (signed_decimal_chars _ Sy) as [Ny Cy].
    exists dx. split; [assumption|].
    unfold clean_location, str_extract.
    rewrite (lat_search_unclosed x Ny Cy).
    unfold unclosed_point.
    rewrite (lon_search_point (lit " " ++ y) Nx Cx eq_refl).
    simpl. rewrite Fx. reflexivity.
  - intros x y -> Sx Sy.
    destruct (signed_decimal_float _ Sx) as [dx Fx].
    destruct (signed_decimal_float _ Sy) as [dy Fy].
    destruct (signed_decimal_chars _ Sx) as [Nx Cx].
    destruct (signed_decimal_chars _ Sy) as [Ny Cy].
    exists dx, dy. split; [assumption|]. split; [assumption|].
    unfold clean_location, str_extract.
    rewrite (lat_search_comma x Cx Ny Cy).
    unfold comma_point.
    rewrite (lon_search_point (lit ", " ++ y ++ lit ")") Nx Cx eq_refl).
    simpl. rewrite Fx, Fy. reflexivity.
  - apply (clean_keeps_rows _ _ H).
  - apply (clean_keeps_rows _ _ H).
Qed.

Lemma C3_unmatched_coordinate_is_nan_witness :
  clean_location (Some (lit "no geometry")) = Ok (NaN, NaN) /\
  clean_location (Some (lit "POINT (-122.33 47.61"))
  = Ok (Fl (DFinite true 8608208475253637 (-46)), NaN).
Proof.
  split.
  - apply (C3_unmatched_coordinate_is_nan (lit "no geometry")); reflexivity.
  - destruct (C3_unmatched_coordinate_is_nan (lit "POINT (-122.33 47.61"))
      as (_ & _ & _ & H & _).
    destruct (H (lit "-122.33") (lit "47.61") eq_refl eq_refl eq_refl)
      as (dx & Hx & Hc).
    vm_compute in Hx. injection Hx as <-. exact Hc.
Defined.

(** The recogniser accepts exactly the texts [POINT (x y)]. *)
Lemma firstn_length_app {A} (x r : list A) : firstn (List.length x) (x ++ r) = x.
Proof. induction x as [|a x IH]; simpl; [reflexivity | rewrite IH; reflexivity]. Qed.

Lemma skipn_succ_length_app {A} (x : list A) c r :
  skipn (S (List.length x)) (x ++ c :: r) = r.
Proof. induction x as [|a x IH]; simpl; [reflexivity | exact IH]. Qed.

Lemma skipn_length_plus {A} (p : list A) k r :
  skipn (List.length p + k) (p ++ r) = skipn k r.
Proof. induction p as [|a p IH]; simpl; [reflexivity | exact IH]. Qed.

Lemma is_wkt_point_iff s :
  is_wkt_point s = true <->
  exists x y,
    signed_decimal x = true /\ signed_decimal y = true /\ s = wkt_point x y.
Proof.
  unfold is_wkt_point. split.
  - intros H. apply existsb_exists in H as (n & _ & H).
    apply existsb_exists in H as (m & _ & H).
    apply andb_true_iff in H as [H E]. apply andb_true_iff in H as [Sx Sy].
    apply text_eqb_eq in E. eauto.
  - intros (x & y & Sx & Sy & ->).
    assert (Lx : List.length x < S (List.length (wkt_point x y))).
    { unfold wkt_point. rewrite !length_app. lia. }
    assert (Ly : List.length y < S (List.length (wkt_point x y))).
    { unfold wkt_point. rewrite !length_app. lia. }
    assert (Ex : firstn (List.length x) (skipn 7 (wkt_point x y)) = x).
    { unfold wkt_point, lit. cbn [list_ascii_of_string app skipn].
      apply firstn_length_app. }
    assert (Ey : firstn (List.length y)
                        (skipn (8 + List.length x) (wkt_point x y)) = y).
    { unfold wkt_point.
      change (8 + List.length x)
        with (List.length (lit "POINT (") + S (List.length x)).
      rewrite skipn_length_plus.
      change (lit " " ++ y ++ lit ")") with (" "%char :: y ++ lit ")").
      rewrite skipn_succ_length_app. apply firstn_length_app. }
    apply existsb_exists. exists (List.length x). split.
    { apply in_seq. lia. }
    apply existsb_exists. exists (List.length y). split.
    { apply in_seq. lia. }
    rewrite Ex, Ey, Sx, Sy. simpl. apply text_eqb_refl.
Qed.

(** No longitude match starts in a non-empty text that does not itself
    start with [POINT (] and a set character, whatever follows the text
    from [POINT (] on. *)
Lemma lon_no_straddle p w :
  p <> [] -> point_here p = false ->
  match_here LON_PATTERN None (p ++ lit "POINT (" ++ w) = None.
Proof.
  intros Hne Hp.
  destruct (match_here LON_PATTERN None (p ++ lit "POINT (" ++ w))
    as [g|] eqn:E; [|reflexivity].
  exfalso. apply lon_match_sound in E as (t & rest & Ht & Hall & _ & E).
  destruct t as [|c t]; [congruence|].
  simpl in Hall. apply andb_true_iff in Hall as [Hc _].
  unfold lit in E. cbn [list_ascii_of_string app] in E.
  destruct p as [|a1 p]; [congruence|].
  do 6 (destruct p as [|? p];
        [cbn [app] in E; injection E; intros; subst; discriminate|]).
  destruct p as [|a8 p].
  - cbn [app] in E. injection E as -> -> -> -> -> -> -> E' _. subst c.
    discriminate.
  - cbn [app] in E. injection E as -> -> -> -> -> -> -> E' _. subst a8.
    change (coord_chr c = false) in Hp. congruence.
Qed.

Lemma lon_skip_prefix pre : forall w,
  has_point pre = false ->
  search LON_PATTERN (pre ++ lit "POINT (" ++ w)
  = search LON_PATTERN (lit "POINT (" ++ w).
Proof.
  induction pre as [|a pre IH]; intros w Hp; [reflexivity|].
  cbn [has_point] in Hp. apply orb_false_iff in Hp as [Hh Hp].
  rewrite <- app_comm_cons. rewrite search_skip.
  - apply IH. exact Hp.
  - rewrite app_comm_cons. apply lon_no_straddle; [discriminate | exact Hh].
Qed.

(** A text with a latitude ends in a set character and [)], or in these
    and a newline. *)
Lemma lat_search_shape s g :
  search LAT_PATTERN s = Some g -> ends_number_paren s = true.
Proof.
  intros H. apply search_sound in H as (pre & s' & -> & H).
  apply lat_match_sound in H as (t & Hne & Hall & _ & Hs).
  destruct (exists_last Hne) as (t' & c & ->).
  rewrite forallb_app in Hall. apply andb_true_iff in Hall as [_ Hc].
  simpl in Hc. rewrite andb_true_r in Hc.
  unfold ends_number_paren.
  destruct Hs as [-> | ->]; rewrite !rev_app_distr; simpl;
    fold coord_chr; rewrite Hc; reflexivity.
Qed.

(** The claim C10 as stated fails when the character after the closing
    parenthesis is a final newline: [$] still matches before it. *)
Lemma C10_counterexample :
  ~ (forall pre x mid t,
       signed_decimal x = true -> t <> [] ->
       exists d,
         clean_location (Some (pre ++ lit "POINT (" ++ x ++ mid ++ lit ")" ++ t))
         = Ok (Fl d, NaN)).
Proof.
  intros H.
  destruct (H [] (lit "1") (lit " 2") ["010"%char] eq_refl) as [d Hd].
  - discriminate.
  - vm_compute in Hd. discriminate.
Qed.

(** Other strings on which the claim C10 as stated fails: a later number
    before a last [)], and a first [POINT (] that no number follows. *)
Example later_point_may_define_latitude :
  clean_location (Some (lit "POINT (1 2) (3 4)"))
  = Ok (Fl (DFinite false 4503599627370496 (-52)),
        Fl (DFinite false 4503599627370496 (-50))) /\
  clean_location (Some (lit "POINT (- POINT (1 2) x")) = Raise ValueError.
Proof. split; reflexivity. Qed.

(** C10 (amended). The two extractions are independent, so one row can hold
    a longitude and no latitude, or a latitude and no longitude.  Every
    string in which the first [POINT (] that a character of the set follows
    is followed by a signed decimal [x], read as far as the characters of
    the set go, and which does not end in a character of the set and [)],
    with or without a newline after it, yields longitude [float(x)] and
    latitude NaN.  The string [47.61)] yields longitude NaN and latitude
    47.61. *)
Theorem C10_independent_extractions (pre x rest : text) :
  has_point pre = false ->
  signed_decimal x = true ->
  stops coord_chr rest = true ->
  ends_number_paren (pre ++ lit "POINT (" ++ x ++ rest) = false ->
  (exists dx,
     py_float x = Some dx /\
     clean_location (Some (pre ++ lit "POINT (" ++ x ++ rest)) = Ok (Fl dx, NaN))
  /\ clean_location (Some (lit "47.61)"))
     = Ok (NaN, Fl (DFinite false 6700511820597166 (-47))).
Proof.
  intros Hpre Sx Hstop Hend. split; [|reflexivity].
  destruct (signed_decimal_float _ Sx) as [dx Fx].
  destruct (signed_decimal_chars _ Sx) as [Nx Cx].
  exists dx. split; [assumption|].
  unfold clean_location, str_extract.
  rewrite (lon_skip_prefix _ _ Hpre), (lon_search_point rest Nx Cx Hstop).
  destruct (search LAT_PATTERN (pre ++ lit "POINT (" ++ x ++ rest))
    as [g|] eqn:E.
  - apply lat_search_shape in E. congruence.
  - simpl. rewrite Fx. reflexivity.
Qed.

Lemma C10_independent_extractions_witness :
  clean_location (Some (lit "(WA) POINT (-122.33 47.61))"))
  = Ok (Fl (DFinite true 8608208475253637 (-46)), NaN).
Proof.
  destruct (C10_independent_extractions
              (lit "(WA) ") (lit "-122.33") (lit " 47.61))")
              eq_refl eq_refl eq_refl eq_refl) as [(dx & Hx & H) _].
  vm_compute in Hx. injection Hx as <-. exact H.
Defined.

(** ** Filter and aggregates *)

(** C4. With both multiselects left at their defaults, all the distinct
    years and all the distinct manufacturers of the table, the filter
    returns the table itself, hence as many rows. *)
Theorem C4_default_filter_identity (df : list row) :
  df_filter df (year_options df) (make_options df) = df /\
  total_evs (df_filter df (year_options df) (make_options df)) = total_evs df.
Proof.
  assert (E : df_filter df (year_options df) (make_options df) = df).
  { unfold df_filter. apply filter_id. intros r Hr.
    unfold year_options, make_options.
    rewrite (@options_cover _ Z.eqb Z.leb Z_eqb_eq),
      (@options_cover _ text_eqb text_leb text_eqb_eq).
    - reflexivity.
    - apply in_map. exact Hr.
    - apply in_map. exact Hr. }
  rewrite E. auto.
Qed.

(** C5. For every filtered subset, the counts of the manufacturer bar
    chart add up to the Total EVs tile. *)
Theorem C5_grouped_counts_sum (df : list row) (year : list Z) (makes : list text) :
  sum_counts (count_by_make (df_filter df year makes))
  = total_evs (df_filter df year makes).
Proof.
  unfold count_by_make, total_evs.
  rewrite (@groupby_size_total _ text_eqb text_leb text_eqb_eq). apply length_map.
Qed.

(** C9. Filtering the filtered table again with the same two selections
    changes nothing. *)
Theorem C9_filter_idempotent (df : list row) (year : list Z) (makes : list text) :
  df_filter (df_filter df year makes) year makes = df_filter df year makes.
Proof. unfold df_filter. apply filter_idem. Qed.

Lemma deref_alloc (f : frame) (m : memory) :
  deref (snd (alloc f m)) (fst (alloc f m)) = Some f /\
  deref m (fst (alloc f m)) = None /\
  forall o g, deref m o = Some g -> deref (snd (alloc f m)) o = Some g.
Proof.
  unfold deref, alloc. cbn [fst snd heap]. split; [|split].
  - rewrite nth_error_app2 by lia. rewrite Nat.sub_diag. reflexivity.
  - apply nth_error_None. lia.
  - intros o g H. rewrite nth_error_app1; [exact H|].
    apply nth_error_Some. congruence.
Qed.

Lemma deref_mutate (o : object) (f : frame) (m : memory) :
  (forall g, deref m o = Some g -> deref (mutate o f m) o = Some f) /\
  forall o', o' <> o -> deref (mutate o f m) o' = deref m o'.
Proof.
  unfold deref, mutate. cbn [heap]. generalize (heap m) as l.
  induction o as [|o IH]; intros [|y l]; split; cbn [set_nth nth_error];
    try discriminate; try reflexivity.
  - intros [|o'] H; [congruence | reflexivity].
  - intros g H. apply (proj1 (IH l) g H).
  - intros [|o'] H; [reflexivity|]. apply (proj2 (IH l)). congruence.
Qed.

(** Cleaning writes into the object [df] names: after it every name bound
    to that object sees the cleaned table, and the other objects are as
    before. *)
Lemma stmt_clean_in_place py_int (m m' : memory) :
  stmt_clean py_int m = Some (Ok m') ->
  exists raw t,
    deref m (name_df m) = Some (RawFrame raw) /\
    clean py_int raw = Ok t /\
    name_df m' = name_df m /\ name_df_f m' = name_df_f m /\
    deref m' (name_df m) = Some (CleanFrame t) /\
    forall o, o <> name_df m -> deref m' o = deref m o.
Proof.
  unfold stmt_clean. intros H.
  destruct (deref m (name_df m)) as [[raw|t0]|] eqn:E; try discriminate.
  injection H as H. destruct (clean py_int raw) as [t|e] eqn:Hc;
    [|discriminate].
  cbn [bind] in H. injection H as <-.
  exists raw, t.
  split; [reflexivity|]. split; [exact Hc|].
  split; [reflexivity|]. split; [reflexivity|]. split.
  - exact (proj1 (deref_mutate (name_df m) (CleanFrame t) m) _ E).
  - apply (proj2 (deref_mutate (name_df m) (CleanFrame t) m)).
Qed.

(** C8. The filter statement leaves the table that [df] names, and every
    other DataFrame in memory, as it was, whatever the two selections; it
    binds [df_f] to a new object whose rows are the rows of [df] that the
    selections keep, in the order they have in [df]. *)
Theorem C8_filter_frame (year : list Z) (makes : list text)
        (m : memory) (t : list row) :
  deref m (name_df m) = Some (CleanFrame t) ->
  exists m' o t_f,
    stmt_filter year makes m = Some m' /\
    name_df m' = name_df m /\
    deref m' (name_df m') = Some (CleanFrame t) /\
    (forall o' f, deref m o' = Some f -> deref m' o' = Some f) /\
    name_df_f m' = Some o /\
    deref m o = None /\
    deref m' o = Some (CleanFrame t_f) /\
    subseq t_f t /\
    (forall r, In r t_f <->
               In r t /\ In (model_year r) year /\ In (make r) makes).
Proof.
  intros Hdf. unfold stmt_filter. rewrite Hdf.
  set (f := CleanFrame (df_filter t year makes)).
  destruct (deref_alloc f m) as (Hnew & Hfresh & Hold).
  destruct (alloc f m) as [o m1] eqn:Ea. cbn [fst snd] in *.
  assert (Hn : name_df m1 = name_df m)
    by (unfold alloc in Ea; injection Ea as _ <-; reflexivity).
  exists (Memory (heap m1) (name_df m1) (Some o)), o, (df_filter t year makes).
  cbn [name_df name_df_f].
  change (deref (Memory (heap m1) (name_df m1) (Some o)))
    with (deref m1).
  split; [reflexivity|]. split; [exact Hn|].
  split; [rewrite Hn; apply Hold; exact Hdf|].
  split; [exact Hold|]. split; [reflexivity|].
  split; [exact Hfresh|]. split; [exact Hnew|].
  split; [apply filter_subseq|].
  intros r. unfold df_filter. rewrite filter_In, andb_true_iff.
  rewrite (@isin_In _ Z.eqb Z_eqb_eq), (@isin_In _ text_eqb text_eqb_eq).
  reflexivity.
Qed.

(** A memory that holds another DataFrame next to the cleaned table, and a
    filter that keeps one of its two rows. *)
Lemma C8_filter_frame_witness :
  let kia := Row 2021 (lit "KIA") (lit "EV6") (Some (lit "Kent"))
                 310 0 None NaN NaN in
  let ford := Row 2019 (lit "FORD") (lit "FOCUS") None 76 0 None NaN NaN in
  let m := Memory [RawFrame []; CleanFrame [kia; ford]] 1 None in
  exists m',
    stmt_filter [2019; 2021]%Z [lit "FORD"] m = Some m' /\
    deref m' 1 = Some (CleanFrame [kia; ford]) /\
    deref m' 0 = Some (RawFrame []) /\
    name_df_f m' = Some 2 /\
    deref m' 2 = Some (CleanFrame [ford]).
Proof.
  intros kia ford m.
  destruct (C8_filter_frame [2019; 2021]%Z [lit "FORD"] m
              (t := [kia; ford]) eq_refl)
    as (m' & o & t_f & Hs & Hn & Hdf & Hold & Hf & _ & Ho & _).
  exists m'. vm_compute in Hs. injection Hs as <-.
  split; [reflexivity|]. repeat split.
Defined.

(** ** Cleaning of the numeric columns *)

Lemma wrap64_in_range z : in_int64 (wrap64 z) = true.
Proof.
  unfold in_int64, wrap64, INT64_MIN.
  pose proof (Z.mod_pos_bound (z + 2 ^ 63) (2 ^ 64) ltac:(lia)).
  apply andb_true_iff. split; [apply Z.leb_le | apply Z.ltb_lt]; lia.
Qed.

Lemma wrap64_id z : in_int64 z = true -> wrap64 z = z.
Proof.
  unfold in_int64, wrap64, INT64_MIN. intros H.
  apply andb_true_iff in H as [H1 H2].
  apply Z.leb_le in H1. apply Z.ltb_lt in H2.
  rewrite Z.mod_small; lia.
Qed.

Lemma astype_int_coerced py_int c z' :
  astype_int py_int c = Ok z' -> coerced py_int c z'.
Proof.
  unfold coerced. destruct c as [|z|q| |t]; simpl; try discriminate.
  - intros [= <-]. split; [apply wrap64_in_range|].
    split; [intros z0 [= <-] Hz; apply wrap64_id; exact Hz|].
    split; [intros q0 Hq; discriminate|].
    split; [intros z0 [= <-]; reflexivity | reflexivity].
  - intros [= <-]. destruct (in_int64 (trunc q)) eqn:E.
    + split; [exact E|]. split; [intros z0 [= <-] _; reflexivity|].
      split; [intros q0 [= <-] Hq; congruence|].
      split; [intros z0 Hz; discriminate | reflexivity].
    + split; [reflexivity|]. split; [intros z0 [= <-] Hz; congruence|].
      split; [intros q0 _ _; reflexivity|].
      split; [intros z0 Hz; discriminate | reflexivity].
  - destruct (py_int t) as [z|]; [|discriminate].
    destruct (in_int64 z) eqn:E; [|discriminate].
    intros [= <-]. split; [exact E|]. split; [intros z0 [= <-] _; reflexivity|].
    split; [intros q0 Hq; discriminate|].
    split; [intros z0 Hz; discriminate | reflexivity].
Qed.

Lemma astype_int_fatal py_int c :
  fatal_cell py_int c = true <->
  exists e, astype_int py_int c = Raise e /\ (e = ValueError \/ e = OverflowError).
Proof.
  destruct c as [|z|q| |t]; simpl.
  - split; [eauto|reflexivity].
  - split; [discriminate | intros (e & H & _); discriminate].
  - split; [discriminate | intros (e & H & _); discriminate].
  - split; [eauto|reflexivity].
  - destruct (py_int t) as [z|]; [|split; [eauto|reflexivity]].
    destruct (in_int64 z); simpl.
    + split; [discriminate | intros (e & H & _); discriminate].
    + split; [eauto|reflexivity].
Qed.

Lemma astype_int_raise_kind py_int c e :
  astype_int py_int c = Raise e -> e = ValueError \/ e = OverflowError.
Proof.
  destruct c as [|z|q| |t]; simpl; try discriminate;
    try (intros [= <-]; auto).
  destruct (py_int t) as [z|]; [|intros [= <-]; auto].
  destruct (in_int64 z); [discriminate | intros [= <-]; auto].
Qed.

Lemma clean_row_numeric py_int r r' :
  clean_row py_int r = Ok r' -> numeric_cleaned py_int r r'.
Proof.
  unfold clean_row, numeric_cleaned. intros H.
  destruct (astype_int py_int (raw_model_year r)) as [y|] eqn:H1; [|discriminate].
  destruct (astype_int py_int (fillna0 (raw_electric_range r))) as [x|] eqn:H2;
    [|discriminate].
  destruct (astype_int py_int (fillna0 (raw_base_msrp r))) as [b|] eqn:H3;
    [|discriminate].
  destruct (clean_location (raw_vehicle_location r)); [|discriminate].
  simpl in H. injection H as <-. simpl.
  split; [apply astype_int_coerced; assumption|].
  split; [apply astype_int_coerced; assumption|].
  split; [apply astype_int_coerced; assumption|].
  split.
  - intros E. rewrite E in H2. simpl in H2. injection H2 as <-. reflexivity.
  - intros E. rewrite E in H3. simpl in H3. injection H3 as <-. reflexivity.
Qed.

Lemma mapM_raise_exists {A B} (f : A -> result B) l e :
  mapM f l = Raise e -> exists x, In x l /\ f x = Raise e.
Proof.
  induction l as [|a l IH]; simpl; [discriminate|].
  destruct (f a) as [y|e0] eqn:Ha; simpl.
  - destruct (mapM f l) as [ys|e1]; simpl; [discriminate|].
    intros [= <-]. destruct (IH eq_refl) as (x & Hx & Hf). eauto.
  - intros [= <-]. eauto.
Qed.

(** The claim C7 as stated fails on a year that does not fit 64 bits: the
    float [1e30] is no int64, and the step completes with the year
    [-2^63]. *)
Lemma C7_counterexample :
  ~ (forall py_int raw,
       (exists r, In r raw /\ coercible py_int (raw_model_year r) = false) ->
       exists e, clean py_int raw = Raise e).
Proof.
  intros H.
  destruct (H (fun _ => None)
              [RawRow (CFloat (10 ^ 30 # 1)) (lit "TESLA") (lit "MODEL 3")
                      (Some (lit "Seattle")) NA NA
                      (Some (lit "POINT (-122.33 47.61)"))])
    as [e He].
  - eexists. split; [left; reflexivity | reflexivity].
  - vm_compute in He. discriminate.
Qed.

(** C7 (amended). When the cleaning step completes, the three columns hold
    int64 integers, none missing: a cell that stands for an integer of the
    int64 range (an integer, a float cut toward zero, a text that [int]
    reads) holds that integer, and a missing [electric_range] or
    [base_msrp] holds 0.  The step raises when some [model_year] is missing
    or infinite, or is a text that [int] rejects or reads as an integer
    outside int64.  A number outside int64 is not fatal: a float becomes
    [-2^63] and an integer wraps modulo [2^64]. *)
Theorem C7_numeric_columns (py_int : text -> option Z) (raw : list raw_row) :
  (forall rows,
     clean py_int raw = Ok rows -> Forall2 (numeric_cleaned py_int) raw rows) /\
  (forall r,
     In r raw -> fatal_cell py_int (raw_model_year r) = true ->
     exists e,
       clean py_int raw = Raise e /\ (e = ValueError \/ e = OverflowError)).
Proof.
  split.
  - intros rows H. apply clean_ok_rows in H.
    induction H; constructor; auto using clean_row_numeric.
  - intros r Hin Hr. apply astype_int_fatal in Hr as (e & Hr & _).
    destruct (mapM_raise_in (astype_int py_int) (map raw_model_year raw)
                (raw_model_year r) (e := e) (in_map _ _ _ Hin) Hr) as [e' He'].
    exists e'. unfold clean. rewrite He'. split; [reflexivity|].
    apply mapM_raise_exists in He' as (c & _ & Hc).
    apply (astype_int_raise_kind _ _ Hc).
Qed.

Lemma C7_numeric_columns_witness :
  let py_int := fun _ : text => @None Z in
  let raw := [RawRow (CFloat (2020 # 1)) (lit "TESLA") (lit "MODEL 3")
                     (Some (lit "Seattle")) NA (CInt 42000)
                     (Some (lit "POINT (-122.33 47.61)"));
              RawRow (CFloat (10 ^ 30 # 1)) (lit "NISSAN") (lit "LEAF")
                     None (CInt 150) NA None] in
  (exists rows,
     clean py_int raw = Ok rows /\
     Forall2 (numeric_cleaned py_int) raw rows /\
     map electric_range rows = [0; 150]%Z /\
     map base_msrp rows = [42000; 0]%Z /\
     map model_year rows = [2020; INT64_MIN]%Z) /\
  exists e,
    clean py_int (raw ++ [RawRow NA (lit "KIA") (lit "NIRO") None NA NA None])
    = Raise e /\ (e = ValueError \/ e = OverflowError).
Proof.
  intros py_int raw. split.
  - eexists. split; [reflexivity|]. split.
    + apply (C7_numeric_columns py_int raw). reflexivity.
    + repeat split.
  - eapply (C7_numeric_columns py_int).
    + apply in_or_app. right. left. reflexivity.
    + reflexivity.
Defined.

(** ** Loader *)

Section LoaderFacts.

Variable read_csv : text -> result (list raw_row).



Lemma load_data_one listdir f :
  filter is_csv listdir = [f] ->
  load_data read_csv listdir = ([], read_csv f).
Proof. unfold load_data. intros ->. reflexivity. Qed.


End LoaderFacts.




(* ================================================================== *)
(** * Further properties of the extraction (lines 85-89) *)

(** Every text splits into its longest leading run of [cls] and a rest. *)
Lemma leading_run (cls : ascii -> bool) (s : text) :
  exists run rest,
    s = run ++ rest /\ forallb cls run = true /\ stops cls rest = true.
Proof.
  induction s as [|c s (run & rest & E & Hr & Hs)].
  - exists [], []. auto.
  - destruct (cls c) eqn:Hc.
    + exists (c :: run), rest. simpl. rewrite Hc, <- E. auto.
    + exists [], (c :: s). simpl. rewrite Hc. auto.
Qed.

Lemma run_not_stops (cls : ascii -> bool) (u : text) :
  u <> [] -> forallb cls u = true -> stops cls (rev u) = false.
Proof.
  intros Hne Hall. destruct (exists_last Hne) as (v & c & ->).
  rewrite rev_unit. simpl. rewrite forallb_app in Hall.
  apply andb_true_iff in Hall as [_ Hc]. simpl in Hc.
  rewrite andb_true_r in Hc. rewrite Hc. reflexivity.
Qed.

(** A match further right leaves some match for the search. *)
Lemma search_finds p pre : forall s g,
  match_here p None s = Some g -> exists g', search p (pre ++ s) = Some g'.
Proof.
  induction pre as [|a pre IH]; intros s g H.
  - exists g. apply search_here. exact H.
  - simpl. destruct (match_here p None (a :: pre ++ s)) as [g0|]; [eauto|].
    apply (IH _ _ H).
Qed.

Lemma search_group_chars p s t :
  p = LON_PATTERN \/ p = LAT_PATTERN ->
  search p s = Some (Some t) ->
  t <> [] /\ forallb coord_chr t = true.
Proof.
  intros Hp E. apply search_sound in E as (pre & s' & _ & E).
  destruct Hp as [-> | ->].
  - apply lon_match_sound in E as (t0 & rest & Hne & Hall & [= <-] & _). auto.
  - apply lat_match_sound in E as (t0 & Hne & Hall & [= <-] & _). auto.
Qed.

(** X1. Whatever either extraction hands to [float] is a non-empty text
    made of ['-'], ['.'] and digits only. *)
Theorem extracted_text_chars (c : option text) (t : text) :
  str_extract LON_PATTERN c = Some t \/ str_extract LAT_PATTERN c = Some t ->
  t <> [] /\ forallb coord_chr t = true.
Proof.
  destruct c as [s|]; simpl; [|intros [H|H]; discriminate].
  intros [H|H].
  - destruct (search LON_PATTERN s) as [g|] eqn:E; [|discriminate]. subst g.
    apply (@search_group_chars LON_PATTERN s t (or_introl eq_refl) E).
  - destruct (search LAT_PATTERN s) as [g|] eqn:E; [|discriminate]. subst g.
    apply (@search_group_chars LAT_PATTERN s t (or_intror eq_refl) E).
Qed.

Lemma extracted_text_chars_witness :
  lit "1.2.3" <> [] /\ forallb coord_chr (lit "1.2.3") = true.
Proof.
  apply (extracted_text_chars (Some (lit "POINT (1.2.3 4)")) (t := lit "1.2.3")).
  left. reflexivity.
Defined.

(** [float] accepts a text only if it is a signed decimal. *)
Lemma float_digits_only neg s d :
  float_digits neg s = Some d -> unsigned_decimal s = true.
Proof.
  unfold unsigned_decimal, float_digits.
  destruct (read_digits_span s 0%N 0) as [m1 ->].
  destruct (span_digits s) as [ip r]. cbn [fst snd].
  destruct r as [|c fp].
  - destruct ip; [discriminate|reflexivity].
  - destruct (chr_eqb c ".") eqn:Ec; [|discriminate].
    destruct (read_digits_span fp m1 0) as [m2 ->].
    destruct (span_digits_spec fp) as (E & Hd & _).
    destruct (span_digits fp) as [fd fr]. cbn [fst snd] in *.
    destruct fr; [|discriminate]. rewrite app_nil_r in E. subst fd.
    rewrite Hd. simpl.
    destruct ip as [|a ip]; [|reflexivity].
    destruct fp; [discriminate|reflexivity].
Qed.

Lemma py_float_signed_decimal t :
  py_float t = None <-> signed_decimal t = false.
Proof.
  split.
  - intros H. destruct (signed_decimal t) eqn:S; [|reflexivity].
    apply signed_decimal_float in S as [d Hd]. congruence.
  - intros H. unfold py_float.
    destruct (parse_decimal t) as [v|] eqn:F; [|reflexivity].
    assert (S : signed_decimal t = true); [|congruence].
    destruct t as [|c r]; [discriminate|]. simpl in F |- *.
    destruct (chr_eqb c "-"); eapply float_digits_only; eauto.
Qed.

(** X2. Lines 88-89 raise [ValueError] exactly when one of the two
    extracted texts is not a signed decimal number. *)
Theorem clean_location_raises (c : option text) :
  clean_location c = Raise ValueError <->
  exists t,
    (str_extract LON_PATTERN c = Some t \/ str_extract LAT_PATTERN c = Some t)
    /\ signed_decimal t = false.
Proof.
  unfold clean_location, astype_float. split.
  - destruct (str_extract LAT_PATTERN c) as [la|] eqn:Ela.
    + destruct (py_float la) as [d|] eqn:Fla.
      * destruct (str_extract LON_PATTERN c) as [lo|] eqn:Elo;
          [|discriminate].
        destruct (py_float lo) eqn:Flo; [discriminate|]. intros _.
        exists lo. split; [auto | apply py_float_signed_decimal; assumption].
      * intros _. exists la.
        split; [auto | apply py_float_signed_decimal; assumption].
    + destruct (str_extract LON_PATTERN c) as [lo|] eqn:Elo; [|discriminate].
      destruct (py_float lo) eqn:Flo; [discriminate|]. intros _.
      exists lo. split; [auto | apply py_float_signed_decimal; assumption].
  - intros (t & [H|H] & S); apply py_float_signed_decimal in S.
    + rewrite H, S.
      destruct (str_extract LAT_PATTERN c) as [la|]; [|reflexivity].
      destruct (py_float la); reflexivity.
    + rewrite H, S. reflexivity.
Qed.

Lemma clean_location_raises_witness :
  clean_location (Some (lit "POINT (47.6-122.3 4)")) = Raise ValueError.
Proof.
  apply clean_location_raises. exists (lit "47.6-122.3").
  split; [left|]; reflexivity.
Defined.

Lemma lat_match_newline t :
  t <> [] -> forallb coord_chr t = true ->
  match_here LAT_PATTERN None (t ++ [")"%char; "010"%char]) = Some (Some t).
Proof.
  intros Hne Hall. unfold LAT_PATTERN. simpl.
  apply plus_from_longest; auto.
Qed.

(** No latitude match starts inside [u] when [u] does not end in a
    character of the set and only a run of the set separates it from the
    closing parenthesis. *)
Lemma lat_skip_before_run u : forall t tail,
  stops coord_chr (rev u) = true ->
  forallb coord_chr t = true ->
  tail = [")"%char] \/ tail = [")"%char; "010"%char] ->
  search LAT_PATTERN (u ++ t ++ tail) = search LAT_PATTERN (t ++ tail).
Proof.
  induction u as [|a u IH]; intros t tail Hu Ht Htail; [reflexivity|].
  rewrite <- app_comm_cons. rewrite search_skip.
  - apply IH; auto.
    simpl in Hu. destruct (rev u); [reflexivity | exact Hu].
  - destruct (match_here LAT_PATTERN None (a :: u ++ t ++ tail)) as [g|] eqn:E;
      [|reflexivity].
    exfalso. apply lat_match_sound in E as (t0 & _ & Hall0 & _ & Hs).
    assert (Hbad : forallb coord_chr (a :: u) = true).
    { destruct Htail as [-> | ->]; destruct Hs as [Hs | Hs].
      - rewrite app_comm_cons, app_assoc in Hs.
        apply app_inj_tail in Hs as [Hs _]. rewrite <- Hs in Hall0.
        rewrite forallb_app in Hall0. apply andb_true_iff in Hall0. tauto.
      - change [")"%char; "010"%char] with ([")"%char] ++ ["010"%char]) in Hs.
        rewrite app_comm_cons, !app_assoc in Hs.
        apply app_inj_tail in Hs as [_ Hs]. discriminate.
      - change [")"%char; "010"%char] with ([")"%char] ++ ["010"%char]) in Hs.
        rewrite app_comm_cons, !app_assoc in Hs.
        apply app_inj_tail in Hs as [_ Hs]. discriminate.
      - change [")"%char; "010"%char] with ([")"%char] ++ ["010"%char]) in Hs.
        rewrite app_comm_cons, !app_assoc in Hs.
        apply app_inj_tail in Hs as [Hs _].
        apply app_inj_tail in Hs as [Hs _]. rewrite <- Hs in Hall0.
        rewrite forallb_app in Hall0. apply andb_true_iff in Hall0. tauto. }
    rewrite (run_not_stops coord_chr (u := a :: u)) in Hu;
      [discriminate | discriminate | exact Hbad].
Qed.

(** X3. The latitude text is the whole run of set characters that stands
    just before the closing parenthesis ending the string, whether or not a
    newline follows that parenthesis, and whatever comes before the run. *)
Theorem latitude_is_trailing_run (u t : text) :
  t <> [] -> forallb coord_chr t = true ->
  stops coord_chr (rev u) = true ->
  str_extract LAT_PATTERN (Some (u ++ t ++ [")"%char])) = Some t /\
  str_extract LAT_PATTERN (Some (u ++ t ++ [")"%char; "010"%char])) = Some t.
Proof.
  intros Hne Ht Hu. unfold str_extract.
  rewrite !lat_skip_before_run by auto.
  rewrite (search_here _ _ (lat_match Hne Ht)).
  rewrite (search_here _ _ (lat_match_newline Hne Ht)). auto.
Qed.

Lemma latitude_is_trailing_run_witness :
  str_extract LAT_PATTERN (Some (lit "LINESTRING (1 2, 3 -4.5)"))
  = Some (lit "-4.5").
Proof.
  apply (latitude_is_trailing_run (lit "LINESTRING (1 2, 3 ") (t := lit "-4.5"));
    [discriminate | reflexivity | reflexivity].
Defined.

(** X4. The longitude is undefined exactly when the string nowhere holds
    [POINT (] immediately followed by a character of the set. *)
Theorem longitude_undefined_iff (s : text) :
  str_extract LON_PATTERN (Some s) = None <->
  ~ (exists pre c rest,
       coord_chr c = true /\ s = pre ++ lit "POINT (" ++ c :: rest).
Proof.
  unfold str_extract. split.
  - intros H (pre & c & rest & Hc & ->).
    destruct (leading_run coord_chr (c :: rest)) as (run & rest' & E & Hr & Hs).
    assert (Hne : run <> []).
    { intros ->. simpl in E. subst rest'. simpl in Hs. rewrite Hc in Hs.
      discriminate. }
    destruct (@search_finds LON_PATTERN pre _ _
                (lon_match rest' Hne Hr Hs)) as [g Hg].
    rewrite <- E in Hg. rewrite Hg in H.
    apply search_sound in Hg as (p1 & s' & _ & Hm).
    apply lon_match_sound in Hm as (t & _ & _ & _ & -> & _). discriminate.
  - intros H. destruct (search LON_PATTERN s) as [g|] eqn:E; [|reflexivity].
    exfalso. apply H.
    apply search_sound in E as (pre & s' & -> & Hm).
    apply lon_match_sound in Hm as (t & rest & Hne & Hall & _ & ->).
    destruct t as [|c t]; [congruence|].
    exists pre, c, (t ++ rest). simpl in Hall.
    apply andb_true_iff in Hall as [Hc _]. auto.
Qed.

Lemma longitude_undefined_iff_witness :
  ~ (exists pre c rest,
       coord_chr c = true /\
       lit "POINT(-122.33 47.61)" = pre ++ lit "POINT (" ++ c :: rest).
Proof.
  apply (proj1 (longitude_undefined_iff (lit "POINT(-122.33 47.61)"))).
  reflexivity.
Defined.

(** The search returns the match at the first position that has one. *)
Lemma search_first p s : forall g,
  search p s = Some g ->
  exists pre s',
    s = pre ++ s' /\ match_here p None s' = Some g /\
    forall p1 p2, pre = p1 ++ p2 -> p2 <> [] ->
                  match_here p None (p2 ++ s') = None.
Proof.
  induction s as [|c s IH]; intros g H; simpl in H.
  - destruct (match_here p None []) eqn:E; [|discriminate].
    injection H as ->. exists [], []. repeat split; auto.
    intros p1 p2 E' Hne. destruct p1; destruct p2; try discriminate.
    congruence.
  - destruct (match_here p None (c :: s)) eqn:E.
    + injection H as ->. exists [], (c :: s). repeat split; auto.
      intros p1 p2 E' Hne. destruct p1; destruct p2; try discriminate.
      congruence.
    + destruct (IH _ H) as (pre & s' & -> & Hm & Hfirst).
      exists (c :: pre), s'. repeat split; auto.
      intros p1 p2 E' Hne. destruct p1 as [|a p1].
      * simpl in E'. subst p2. exact E.
      * injection E' as -> E'. eapply Hfirst; eauto.
Qed.

(** X5. When the longitude is defined, its text is the whole run of set
    characters that follows the first [POINT (] in the string that is
    followed by a set character. *)
Theorem longitude_is_first_run (s t : text) :
  str_extract LON_PATTERN (Some s) = Some t ->
  exists pre rest,
    s = pre ++ lit "POINT (" ++ t ++ rest /\
    t <> [] /\ forallb coord_chr t = true /\ stops coord_chr rest = true /\
    forall p1 c r,
      coord_chr c = true -> s = p1 ++ lit "POINT (" ++ c :: r ->
      List.length pre <= List.length p1.
Proof.
  unfold str_extract. intros H.
  destruct (search LON_PATTERN s) as [g|] eqn:E; [|discriminate]. subst g.
  apply search_first in E as (pre & s' & -> & Hm & Hfirst).
  destruct (lon_match_sound _ Hm) as (t0 & rest0 & Hne0 & Hall0 & _ & ->).
  destruct (leading_run coord_chr (t0 ++ rest0))
    as (run & rest & E & Hr & Hs).
  assert (Hne : run <> []).
  { intros ->. simpl in E. destruct t0 as [|c0 t0]; [congruence|].
    simpl in E. subst rest. simpl in Hs, Hall0.
    apply andb_true_iff in Hall0 as [Hc _]. rewrite Hc in Hs. discriminate. }
  rewrite E in Hm. rewrite (lon_match rest Hne Hr Hs) in Hm.
  injection Hm as ->. rewrite E.
  exists pre, rest. repeat split; auto.
  intros p1 c r Hc Eq.
  destruct (Nat.le_gt_cases (List.length pre) (List.length p1)) as [|Hlt];
    [assumption|exfalso].
  apply app_eq_app in Eq as (l & [[Ep El] | [Ep El]]).
  - assert (Hl : l <> []).
    { intros ->. rewrite app_nil_r in Ep. subst p1. lia. }
    specialize (Hfirst p1 l Ep Hl). rewrite E, <- El in Hfirst.
    destruct (leading_run coord_chr (c :: r)) as (run' & rest' & E' & Hr' & Hs').
    assert (Hne' : run' <> []).
    { intros ->. simpl in E'. subst rest'. simpl in Hs'. rewrite Hc in Hs'.
      discriminate. }
    rewrite E', (lon_match rest' Hne' Hr' Hs') in Hfirst. discriminate.
  - subst p1. rewrite length_app in Hlt. lia.
Qed.

Lemma longitude_is_first_run_witness :
  exists pre rest,
    lit "POINT (x) POINT (-1.5--2 3)" = pre ++ lit "POINT (" ++ lit "-1.5--2" ++ rest
    /\ stops coord_chr rest = true.
Proof.
  destruct (@longitude_is_first_run (lit "POINT (x) POINT (-1.5--2 3)")
              (lit "-1.5--2") eq_refl)
    as (pre & rest & E & _ & _ & Hs & _).
  exists pre, rest. split; assumption.
Defined.

(** X6. In a string made of two points, whatever stands between them, the
    longitude comes from the first point and the latitude from the last. *)
Theorem two_points_mix (x1 y1 x2 y2 mid : text) :
  signed_decimal x1 = true -> signed_decimal y1 = true ->
  signed_decimal x2 = true -> signed_decimal y2 = true ->
  exists dx dy,
    py_float x1 = Some dx /\ py_float y2 = Some dy /\
    clean_location (Some (wkt_point x1 y1 ++ mid ++ wkt_point x2 y2))
    = Ok (Fl dx, Fl dy).
Proof.
  intros Sx1 Sy1 Sx2 Sy2.
  destruct (signed_decimal_float _ Sx1) as [dx Fx].
  destruct (signed_decimal_float _ Sy2) as [dy Fy].
  destruct (signed_decimal_chars _ Sx1) as [Nx Cx].
  destruct (signed_decimal_chars _ Sy2) as [Ny Cy].
  exists dx, dy. split; [assumption|]. split; [assumption|].
  unfold clean_location.
  assert (Elat : str_extract LAT_PATTERN
                   (Some (wkt_point x1 y1 ++ mid ++ wkt_point x2 y2)) = Some y2).
  { replace (wkt_point x1 y1 ++ mid ++ wkt_point x2 y2)
      with (((wkt_point x1 y1 ++ mid ++ lit "POINT (" ++ x2) ++ [" "%char])
            ++ y2 ++ [")"%char]).
    - apply latitude_is_trailing_run; auto.
      rewrite rev_unit. reflexivity.
    - unfold wkt_point, lit. cbn [list_ascii_of_string].
      repeat rewrite <- app_assoc. reflexivity. }
  assert (Elon : str_extract LON_PATTERN
                   (Some (wkt_point x1 y1 ++ mid ++ wkt_point x2 y2)) = Some x1).
  { unfold str_extract, wkt_point at 1. repeat rewrite <- app_assoc.
    rewrite (lon_search_point _ Nx Cx); reflexivity. }
  rewrite Elat, Elon. simpl. rewrite Fx, Fy. reflexivity.
Qed.

Lemma two_points_mix_witness :
  clean_location (Some (lit "POINT (1 2), POINT (3 4)"))
  = Ok (Fl (DFinite false 4503599627370496 (-52)),
        Fl (DFinite false 4503599627370496 (-50))).
Proof.
  destruct (@two_points_mix (lit "1") (lit "2") (lit "3") (lit "4") (lit ", ")
                            eq_refl eq_refl eq_refl eq_refl)
    as (dx & dy & Hx & Hy & H).
  vm_compute in Hx, Hy. injection Hx as <-. injection Hy as <-. exact H.
Defined.

(** X26. A coordinate that [astype(float)] stores for a text is a double
    nearest to the decimal number the text writes: it has its sign, and no
    double is closer to it; it is an infinity only for a number at least
    halfway from the largest double to [2^1024]. *)
Theorem astype_float_nearest (t : text) (d : double) :
  astype_float (Some t) = Ok (Fl d) ->
  exists v,
    parse_decimal t = Some v /\ d = double_of_decimal v /\ nearest_double v d.
Proof.
  unfold astype_float, py_float.
  destruct (parse_decimal t) as [v|]; [|discriminate].
  cbn [option_map]. intros [= <-].
  exists v. split; [reflexivity|]. split; [reflexivity|].
  apply double_of_decimal_nearest.
Qed.

Lemma astype_float_nearest_witness :
  exists v,
    parse_decimal (lit "0.1") = Some v /\
    DFinite false 7205759403792794 (-56) = double_of_decimal v /\
    nearest_double v (DFinite false 7205759403792794 (-56)).
Proof.
  apply (@astype_float_nearest (lit "0.1")). reflexivity.
Defined.

(* ================================================================== *)
(** * Further properties of the loader (lines 60-76) *)

Lemma endswith_iff s suffix :
  endswith s suffix = true <-> exists pre, s = pre ++ suffix.
Proof.
  induction s as [|c s IH]; cbn [endswith].
  - rewrite orb_false_r, text_eqb_eq. split.
    + intros <-. exists []. reflexivity.
    + intros (pre & E). symmetry in E. apply app_eq_nil in E as [_ ->].
      reflexivity.
  - rewrite orb_true_iff, text_eqb_eq, IH. split.
    + intros [<- | (pre & ->)]; [exists [] | exists (c :: pre)]; reflexivity.
    + intros ([|a pre] & E); [left; exact E|].
      injection E as -> ->. right. eauto.
Qed.

Lemma lower_chr_idem c : lower_chr (lower_chr c) = lower_chr c.
Proof.
  destruct c as [[] [] [] [] [] [] [] []]; reflexivity.
Qed.

Lemma lower_idem s : lower (lower s) = lower s.
Proof.
  unfold lower. rewrite map_map. apply map_ext. apply lower_chr_idem.
Qed.

(** X7. A directory entry counts as a CSV file exactly when it ends in an
    extension that reads [.csv] once lower-cased, in whatever letter case
    the rest of the name is; an entry and its lower-cased name are treated
    alike. *)
Theorem is_csv_iff (f : text) :
  (is_csv f = true <->
   exists stem ext, f = stem ++ ext /\ lower ext = lit ".csv") /\
  is_csv (lower f) = is_csv f.
Proof.
  unfold is_csv. split.
  - rewrite endswith_iff. split.
    + intros (pre & E). unfold lower in E.
      apply map_eq_app in E as (stem & ext & -> & _ & E). eauto.
    + intros (stem & ext & -> & E). exists (lower stem).
      unfold lower in *. rewrite map_app, E. reflexivity.
  - rewrite lower_idem. reflexivity.
Qed.

Lemma is_csv_iff_witness :
  is_csv (lit "Electric_Vehicles.CsV") = true.
Proof.
  apply (proj1 (is_csv_iff (lit "Electric_Vehicles.CsV"))).
  exists (lit "Electric_Vehicles"), (lit ".CsV"). split; reflexivity.
Defined.

Section LoaderMore.

Variable read_csv : text -> result (list raw_row).

(** X8. The loader returns a table only when exactly one entry of the
    directory is a CSV file; the table is that file's, nothing is displayed,
    and the entries that are not CSV files play no part in the outcome. *)
Theorem load_data_table (listdir : list text) :
  (forall out df,
     load_data read_csv listdir = (out, Ok df) ->
     exists f,
       filter is_csv listdir = [f] /\ In f listdir /\
       read_csv f = Ok df /\ out = []) /\
  load_data read_csv listdir = load_data read_csv (filter is_csv listdir).
Proof.
  split.
  - intros out df H. unfold load_data in H.
    destruct (filter is_csv listdir) as [|f [|g files]] eqn:E; simpl in H;
      try discriminate.
    injection H as <- H. exists f. repeat split; auto.
    assert (Hin : In f (filter is_csv listdir)) by (rewrite E; left; reflexivity).
    apply filter_In in Hin. tauto.
  - unfold load_data. rewrite filter_idem. reflexivity.
Qed.

End LoaderMore.

Lemma load_data_table_witness :
  exists f,
    filter is_csv [lit "README.md"; lit "ev.csv"] = [f] /\
    In f [lit "README.md"; lit "ev.csv"].
Proof.
  destruct (proj1 (load_data_table (fun _ => Ok [])
                                   [lit "README.md"; lit "ev.csv"])
                  [] [] eq_refl)
    as (f & E & Hin & _).
  exists f. split; assumption.
Defined.

Section CacheMore.

Variable read_csv : text -> result (list raw_row).

(** X9. A call that stops or fails stores nothing and leaves the session
    as it was: it ran the body on an empty cache, and the next call runs
    the body again, so a corrected directory is picked up. *)
Theorem failed_call_not_cached (listdir : list text) (st st' : session)
        (out : list element) (e : exn) :
  cached_load_data read_csv listdir st = (out, Raise e, st') ->
  st' = st /\ cache st = None /\
  load_data read_csv listdir = (out, Raise e) /\
  forall listdir' f df,
    filter is_csv listdir' = [f] -> read_csv f = Ok df ->
    cached_load_data read_csv listdir' st'
    = ([], Ok (next_object st, df), Session (Some df) (S (next_object st))).
Proof.
  unfold cached_load_data. destruct (cache st) as [c|] eqn:Hc; [discriminate|].
  destruct (load_data read_csv listdir) as [out' [df'|e']]; [discriminate|].
  intros [= <- <- <-]. repeat split.
  intros listdir' f df Hf Hr. rewrite Hc.
  rewrite (load_data_one read_csv _ Hf), Hr. reflexivity.
Qed.

Lemma run_calls_cached dirs : forall st df,
  cache st = Some df ->
  run_calls read_csv dirs st
  = map (fun o => (o, df)) (seq (next_object st) (List.length dirs)).
Proof.
  induction dirs as [|d dirs IH]; intros st df Hc; [reflexivity|].
  simpl. unfold cached_load_data. rewrite Hc.
  rewrite (IH _ df); [reflexivity|reflexivity].
Qed.

(** X10. Over any number of reruns, with any directory contents, all the
    tables the cached loader returns are one and the same table, and each
    comes as a new object: the objects are numbered consecutively. *)
Theorem run_calls_one_table (dirs : list (list text)) (st : session) :
  exists df k,
    k <= List.length dirs /\
    run_calls read_csv dirs st
    = map (fun o => (o, df)) (seq (next_object st) k).
Proof.
  destruct (cache st) as [df|] eqn:Hc.
  - exists df, (List.length dirs). split; [lia|].
    apply run_calls_cached. exact Hc.
  - induction dirs as [|d dirs IH].
    + exists [], 0. split; [lia|reflexivity].
    + simpl. unfold cached_load_data. rewrite Hc.
      destruct (load_data read_csv d) as [out [df|e]].
      * exists df, (S (List.length dirs)). split; [lia|].
        rewrite (@run_calls_cached dirs (Session (Some df) (S (next_object st)))
                                   df eq_refl).
        reflexivity.
      * destruct IH as (df & k & Hk & E). exists df, k. split; [lia|exact E].
Qed.

End CacheMore.

Lemma failed_call_not_cached_witness :
  cached_load_data (fun _ => Ok []) [lit "ev.csv"] (Session None 0)
  = ([], Ok (0, []), Session (Some []) 1).
Proof.
  apply (proj2 (proj2 (proj2
           (@failed_call_not_cached (fun _ => Ok []) [] (Session None 0)
              (Session None 0) _ StopException eq_refl)))
           [lit "ev.csv"] (lit "ev.csv") []); reflexivity.
Defined.

(* ================================================================== *)
(** * Further properties of the cleaning step (lines 81-89) *)

Lemma mapM_all_ok {A B} (f : A -> result B) l :
  (forall x, In x l -> exists y, f x = Ok y) -> exists l', mapM f l = Ok l'.
Proof.
  induction l as [|a l IH]; intros H; simpl; [eauto|].
  destruct (H a (or_introl eq_refl)) as [y ->].
  destruct IH as [l' ->]; [intros x Hx; apply H; right; exact Hx|].
  simpl. eauto.
Qed.

Lemma astype_int_ok py_int c :
  fatal_cell py_int c = false -> exists z, astype_int py_int c = Ok z.
Proof.
  destruct c as [|z|q| |t]; simpl; try discriminate; eauto.
  destruct (py_int t) as [z|]; [|discriminate].
  destruct (in_int64 z); [eauto|discriminate].
Qed.

Lemma clean_location_raise c e : clean_location c = Raise e -> e = ValueError.
Proof.
  unfold clean_location.
  destruct (astype_float (str_extract LAT_PATTERN c)) eqn:F1; simpl;
    [|intros [= <-]; eauto using astype_float_raise].
  destruct (astype_float (str_extract LON_PATTERN c)) eqn:F2; simpl;
    [discriminate | intros [= <-]; eauto using astype_float_raise].
Qed.

Lemma clean_row_ok_iff py_int r :
  (exists r', clean_row py_int r = Ok r') <-> ~ row_fails py_int r.
Proof.
  unfold clean_row, row_fails. split.
  - intros [r' H] F.
    destruct (astype_int py_int (raw_model_year r)) eqn:H1; [|discriminate].
    destruct (astype_int py_int (fillna0 (raw_electric_range r))) eqn:H2;
      [|discriminate].
    destruct (astype_int py_int (fillna0 (raw_base_msrp r))) eqn:H3;
      [|discriminate].
    destruct (clean_location (raw_vehicle_location r)) eqn:H4; [|discriminate].
    destruct F as [F | [F | [F | F]]]; try discriminate;
      apply astype_int_fatal in F as (e & F & _); congruence.
  - intros F.
    destruct (fatal_cell py_int (raw_model_year r)) eqn:F1; [tauto|].
    destruct (fatal_cell py_int (fillna0 (raw_electric_range r))) eqn:F2; [tauto|].
    destruct (fatal_cell py_int (fillna0 (raw_base_msrp r))) eqn:F3; [tauto|].
    destruct (astype_int_ok _ _ F1) as [y ->].
    destruct (astype_int_ok _ _ F2) as [x ->].
    destruct (astype_int_ok _ _ F3) as [b ->].
    destruct (clean_location (raw_vehicle_location r)) as [p|e] eqn:E.
    + simpl. eauto.
    + exfalso. apply F. right. right. right. f_equal.
      apply (clean_location_raise _ E).
Qed.

Lemma str_accessor_ok raw :
  str_accessor (map raw_vehicle_location raw) = Ok tt <->
  raw = [] \/ has_geometry_text raw.
Proof.
  unfold str_accessor, has_geometry_text.
  destruct raw as [|r0 raw]; [simpl; tauto|].
  set (col := map raw_vehicle_location (r0 :: raw)).
  change (match col with [] => Ok tt | _ :: _ => _ end)
    with (if forallb (fun c : option text =>
                        match c with None => true | Some _ => false end) col
          then @Raise unit AttributeError else Ok tt).
  destruct (forallb _ col) eqn:E.
  - split; [discriminate|]. intros [H | (r & Hin & Hr)]; [discriminate|].
    exfalso. rewrite forallb_forall in E.
    specialize (E (raw_vehicle_location r) (in_map _ _ _ Hin)).
    destruct (raw_vehicle_location r); [discriminate|congruence].
  - split; [|reflexivity]. intros _. right.
    assert (H : exists c, In c col /\
                match c with None => true | Some _ => false end = false).
    { clear -E. induction col as [|c col IH]; [discriminate|].
      simpl in E. apply andb_false_iff in E as [E|E].
      - exists c. split; [left; reflexivity | exact E].
      - destruct (IH E) as (c' & Hin & Hc). exists c'. split; [right|]; assumption. }
    destruct H as (c & Hin & Hc). unfold col in Hin.
    apply in_map_iff in Hin as (r & <- & Hin).
    exists r. split; [exact Hin|]. destruct (raw_vehicle_location r); congruence.
Qed.

(** X11. The cleaning step completes exactly when no conversion fails on
    any row (a [model_year], or an [electric_range] or [base_msrp] after
    [fillna(0)], that is infinite or a text that is no int64, a missing
    [model_year], an extracted coordinate text that [float] rejects) and
    the table has no row or has a geometry string in some row.  One failing
    row anywhere loses the whole table. *)
Theorem clean_completes_iff (py_int : text -> option Z) (raw : list raw_row) :
  (exists rows, clean py_int raw = Ok rows) <->
  (forall r, In r raw -> ~ row_fails py_int r) /\
  (raw = [] \/ has_geometry_text raw).
Proof.
  split.
  - intros [rows H]. apply clean_ok_iff in H as [Ha Hm]. split.
    + intros r Hin. apply clean_row_ok_iff.
      apply mapM_ok in Hm. clear Ha.
      induction Hm as [|r0 r0' raw rows Hr _ IH]; [contradiction|].
      destruct Hin as [<- | Hin]; [eauto | apply IH; exact Hin].
    + apply str_accessor_ok. exact Ha.
  - intros [Hrows Ha].
    destruct (mapM_all_ok (clean_row py_int) raw) as [rows Hm].
    + intros r Hin. apply clean_row_ok_iff. apply Hrows. exact Hin.
    + exists rows. apply clean_ok_iff. split; [|exact Hm].
      apply str_accessor_ok. exact Ha.
Qed.

Lemma clean_completes_iff_witness :
  ~ (forall r,
       In r [RawRow (CInt 2020) (lit "TESLA") (lit "MODEL Y")
                    (Some (lit "Seattle")) (CInt 291) NA
                    (Some (lit "POINT (-122.33 47.61)"));
             RawRow (CInt 2021) (lit "FORD") (lit "MUSTANG")
                    (Some (lit "Kent")) (CText (lit "unknown")) NA None] ->
       ~ row_fails (fun _ => None) r).
Proof.
  intros H.
  assert (E : exists rows,
            clean (fun _ => None)
              [RawRow (CInt 2020) (lit "TESLA") (lit "MODEL Y")
                      (Some (lit "Seattle")) (CInt 291) NA
                      (Some (lit "POINT (-122.33 47.61)"));
               RawRow (CInt 2021) (lit "FORD") (lit "MUSTANG")
                      (Some (lit "Kent")) (CText (lit "unknown")) NA None]
            = Ok rows).
  { apply clean_completes_iff. split; [exact H|].
    right. eexists. split; [left; reflexivity | discriminate]. }
  destruct E as [rows E]. vm_compute in E. discriminate.
Defined.

(** X12. When the cleaning step completes, every row keeps its make,
    model, city and geometry string, in the order of the file, and its two
    coordinates are those extracted from its own geometry string. *)
Theorem clean_carries_rows (py_int : text -> option Z)
        (raw : list raw_row) (rows : list row) :
  clean py_int raw = Ok rows -> Forall2 row_carried raw rows.
Proof.
  intros H. apply clean_ok_rows in H.
  induction H as [|r r' raw rows Hr _ IH]; constructor; [|exact IH].
  unfold clean_row in Hr. unfold row_carried.
  destruct (astype_int py_int (raw_model_year r)); [|discriminate].
  destruct (astype_int py_int (fillna0 (raw_electric_range r))); [|discriminate].
  destruct (astype_int py_int (fillna0 (raw_base_msrp r))); [|discriminate].
  destruct (clean_location (raw_vehicle_location r)) as [[lo la]|];
    [|discriminate].
  simpl in Hr. injection Hr as <-. simpl. auto.
Qed.

Lemma clean_carries_rows_witness :
  exists rows,
    Forall2 row_carried
      [RawRow (CInt 2020) (lit "TESLA") (lit "MODEL Y") (Some (lit "Seattle"))
              (CInt 291) NA (Some (lit "POINT (-122.33 47.61)"))]
      rows.
Proof.
  eexists. apply (@clean_carries_rows (fun _ => None)). reflexivity.
Defined.

Lemma trunc_bounds n d :
  let z := Z.quot n (Zpos d) in
  (0 <= n -> z * Zpos d <= n < (z + 1) * Zpos d)%Z /\
  (n <= 0 -> (z - 1) * Zpos d < n <= z * Zpos d)%Z.
Proof.
  intros z. subst z.
  pose proof (Z.quot_rem' n (Zpos d)) as E.
  split; intros Hn.
  - pose proof (Z.rem_bound_pos n (Zpos d) Hn ltac:(lia)). nia.
  - pose proof (Z.rem_bound_pos_neg n (Zpos d) ltac:(lia) Hn). nia.
Qed.

(** X13. [astype(int)] on a finite float cell never raises and leaves an
    int64.  A float whose integer part fits int64 is cut toward zero: the
    integer lies between 0 and the float, less than 1 away from it.  A
    float whose integer part does not fit becomes [-2^63].  A float with an
    integer value of the range, as a column with gaps is read, keeps that
    value. *)
Theorem float_cell_truncated (py_int : text -> option Z) (q : Q) :
  exists z,
    astype_int py_int (CFloat q) = Ok z /\
    in_int64 z = true /\
    (in_int64 (trunc q) = true ->
     (0 <= q -> inject_Z z <= q /\ q < inject_Z z + 1)%Q /\
     (q <= 0 -> inject_Z z - 1 < q /\ q <= inject_Z z)%Q) /\
    (in_int64 (trunc q) = false -> z = INT64_MIN) /\
    forall k,
      in_int64 k = true -> astype_int py_int (CFloat (inject_Z k)) = Ok k.
Proof.
  eexists. split; [reflexivity|]. split; [|split; [|split]].
  - destruct (in_int64 (trunc q)) eqn:E; [exact E | reflexivity].
  - intros E. rewrite E.
    destruct q as [n d]. unfold trunc. cbn [Qnum Qden].
    destruct (trunc_bounds n d) as [Hp Hn].
    set (z := Z.quot n (Zpos d)) in *. clearbody z.
    unfold Qle, Qlt, Qplus, Qminus, Qopp, inject_Z. cbn [Qnum Qden].
    split; intros H; simpl in *; lia.
  - intros E. rewrite E. reflexivity.
  - intros k Hk. unfold astype_int, trunc, inject_Z. cbn [Qnum Qden].
    rewrite Z.quot_1_r, Hk. reflexivity.
Qed.

Lemma float_cell_truncated_witness :
  exists z,
    astype_int (fun _ => None) (CFloat (20209 # 10)) = Ok z /\
    (inject_Z z <= 20209 # 10)%Q.
Proof.
  destruct (float_cell_truncated (fun _ => None) (20209 # 10))
    as (z & Hz & _ & Hp & _).
  exists z. split; [exact Hz|]. apply Hp; [reflexivity|].
  unfold Qle. simpl. lia.
Defined.

(* ================================================================== *)
(** * Further properties of the filter (lines 102-117) *)

Lemma isin_year x l : isin Z.eqb x l = true <-> In x l.
Proof. apply (@isin_In _ Z.eqb Z_eqb_eq). Qed.

Lemma isin_make x l : isin text_eqb x l = true <-> In x l.
Proof. apply (@isin_In _ text_eqb text_eqb_eq). Qed.

(** X14. A row is in the filtered table exactly when it is in the table,
    its year is among the selected years and its make among the selected
    manufacturers. *)
Theorem df_filter_In (df : list row) (year : list Z) (makes : list text)
        (r : row) :
  In r (df_filter df year makes) <->
  In r df /\ In (model_year r) year /\ In (make r) makes.
Proof.
  unfold df_filter. rewrite filter_In, andb_true_iff.
  rewrite isin_year, isin_make. tauto.
Qed.

Lemma filter_ext_eq {A} (f g : A -> bool) l :
  (forall x, In x l -> f x = g x) -> filter f l = filter g l.
Proof.
  induction l as [|a l IH]; intros H; simpl; [reflexivity|].
  rewrite (H a (or_introl eq_refl)), IH; [reflexivity|].
  intros x Hx. apply H. right. exact Hx.
Qed.

Lemma isin_ext {A} (eqb : A -> A -> bool)
      (eqb_eq : forall a b, eqb a b = true <-> a = b) x l l' :
  (forall y, In y l <-> In y l') -> isin eqb x l = isin eqb x l'.
Proof.
  intros H. destruct (isin eqb x l') eqn:E.
  - apply (@isin_In _ eqb eqb_eq). apply H. apply (@isin_In _ eqb eqb_eq).
    exact E.
  - destruct (isin eqb x l) eqn:E'; [|reflexivity].
    apply (@isin_In _ eqb eqb_eq) in E'. apply H in E'.
    apply (@isin_In _ eqb eqb_eq) in E'. congruence.
Qed.

(** X15. Only which values are selected matters to the filter: the order
    in which they were picked and repeated picks change nothing. *)
Theorem df_filter_selection_sets (df : list row)
        (year year' : list Z) (makes makes' : list text) :
  (forall y, In y year <-> In y year') ->
  (forall m, In m makes <-> In m makes') ->
  df_filter df year makes = df_filter df year' makes'.
Proof.
  intros Hy Hm. unfold df_filter. apply filter_ext_eq. intros r _.
  rewrite (@isin_ext _ Z.eqb Z_eqb_eq _ _ _ Hy),
    (@isin_ext _ text_eqb text_eqb_eq _ _ _ Hm). reflexivity.
Qed.

Lemma df_filter_selection_sets_witness :
  let df := [Row 2020 (lit "KIA") (lit "NIRO") (Some (lit "Kent"))
                 239 0 None NaN NaN;
             Row 2019 (lit "FORD") (lit "FOCUS") (Some (lit "Kent"))
                 76 0 None NaN NaN;
             Row 2021 (lit "KIA") (lit "EV6") (Some (lit "Kent"))
                 310 0 None NaN NaN] in
  df_filter df [2020; 2019]%Z [lit "KIA"; lit "FORD"]
  = df_filter df [2019; 2020; 2019]%Z [lit "FORD"; lit "KIA"; lit "KIA"]
  /\ List.length (df_filter df [2020; 2019]%Z [lit "KIA"; lit "FORD"]) = 2.
Proof.
  intros df. split; [|reflexivity].
  apply df_filter_selection_sets; intros x; simpl; tauto.
Defined.

(** X16. Narrowing a selection can be done on the filtered table: filtering
    the result of a wider selection with a narrower one gives what the
    narrower one gives on the whole table. *)
Theorem df_filter_narrow (df : list row)
        (year year' : list Z) (makes makes' : list text) :
  incl year year' -> incl makes makes' ->
  df_filter (df_filter df year' makes') year makes = df_filter df year makes.
Proof.
  intros Hy Hm. unfold df_filter.
  induction df as [|r df IH]; simpl; [reflexivity|].
  destruct (isin Z.eqb (model_year r) year && isin text_eqb (make r) makes)
    eqn:E.
  - apply andb_true_iff in E as [Ey Em].
    apply isin_year in Ey. apply isin_make in Em.
    rewrite (proj2 (isin_year _ _) (Hy _ Ey)).
    rewrite (proj2 (isin_make _ _) (Hm _ Em)). simpl.
    rewrite (proj2 (isin_year _ _) Ey).
    rewrite (proj2 (isin_make _ _) Em). simpl.
    f_equal. exact IH.
  - destruct (isin Z.eqb (model_year r) year'
              && isin text_eqb (make r) makes'); simpl; [|exact IH].
    rewrite E. exact IH.
Qed.

Lemma df_filter_narrow_witness :
  let r := Row 2020 (lit "KIA") (lit "NIRO") (Some (lit "Kent")) 239 0 None NaN NaN in
  df_filter (df_filter [r] [2019; 2020]%Z [lit "KIA"; lit "FORD"])
            [2020]%Z [lit "KIA"]
  = df_filter [r] [2020]%Z [lit "KIA"].
Proof.
  intros r. apply df_filter_narrow; intros x [<-|[]]; simpl; auto.
Defined.

(* ================================================================== *)
(** * Further properties of the multiselect options (lines 102-112) *)

Section SortedMore.

Variable A : Type.
Variable leb : A -> A -> bool.
Hypothesis leb_total : forall a b, leb a b = true \/ leb b a = true.

Let le (a b : A) : Prop := leb a b = true.

Lemma insert_sorted_hdrel a x l :
  HdRel le a l -> le a x -> HdRel le a (insert_sorted leb x l).
Proof.
  intros H Hax. destruct l as [|b l]; simpl; [constructor; exact Hax|].
  destruct (leb x b); constructor; [exact Hax|].
  inversion H; assumption.
Qed.

Lemma insert_sorted_Sorted x l :
  Sorted le l -> Sorted le (insert_sorted leb x l).
Proof.
  induction 1 as [|a l Hs IH Hd]; simpl; [repeat constructor|].
  destruct (leb x a) eqn:E.
  - constructor; [constructor; assumption|]. constructor. exact E.
  - constructor; [exact IH|]. apply insert_sorted_hdrel; [exact Hd|].
    destruct (leb_total a x) as [H|H]; [exact H|]. congruence.
Qed.

Lemma sorted_Sorted l : Sorted le (sorted leb l).
Proof.
  induction l as [|a l IH]; simpl; [constructor|].
  apply insert_sorted_Sorted. exact IH.
Qed.

End SortedMore.

Lemma text_leb_total a : forall b, text_leb a b = true \/ text_leb b a = true.
Proof.
  induction a as [|x a IH]; intros [|y b]; simpl; auto.
  destruct (Nat.lt_trichotomy (nat_of_ascii x) (nat_of_ascii y)) as [H|[H|H]].
  - left. apply Nat.ltb_lt in H. rewrite H. reflexivity.
  - rewrite H, Nat.eqb_refl, Nat.ltb_irrefl. simpl. apply IH.
  - right. apply Nat.ltb_lt in H. rewrite H. reflexivity.
Qed.

Lemma text_leb_trans a : forall b c,
  text_leb a b = true -> text_leb b c = true -> text_leb a c = true.
Proof.
  induction a as [|x a IH]; intros [|y b] [|z c]; simpl; auto;
    try discriminate.
  rewrite !orb_true_iff, !andb_true_iff, !Nat.ltb_lt, !Nat.eqb_eq.
  intros [H1 | [H1 H1']] [H2 | [H2 H2']].
  - left. lia.
  - left. lia.
  - left. lia.
  - right. split; [lia|]. eapply IH; eauto.
Qed.

Lemma strict_of_nodup (l : list Z) :
  Sorted (fun a b => Z.leb a b = true) l -> NoDup l -> StronglySorted Z.lt l.
Proof.
  intros Hs Hn.
  assert (Hss : StronglySorted (fun a b => Z.leb a b = true) l).
  { apply Sorted_StronglySorted; [|exact Hs].
    intros a b c Hab Hbc. apply Z.leb_le in Hab, Hbc. apply Z.leb_le. lia. }
  clear Hs. induction Hss as [|a l Hss IH Hall]; constructor.
  - apply IH. inversion Hn; assumption.
  - inversion Hn as [|? ? Hna _]; subst.
    rewrite Forall_forall in *. intros x Hx.
    specialize (Hall x Hx). apply Z.leb_le in Hall.
    assert (x <> a) by (intros ->; contradiction). lia.
Qed.

(** X17. The year multiselect offers exactly the years present in the
    table, each once, in strictly ascending order. *)
Theorem year_options_sorted (df : list row) :
  StronglySorted Z.lt (year_options df) /\
  forall y, In y (year_options df) <-> exists r, In r df /\ model_year r = y.
Proof.
  unfold year_options.
  pose proof (sorted_perm Z.leb (unique Z.eqb (map model_year df))) as P.
  split.
  - apply strict_of_nodup.
    + apply sorted_Sorted. intros a b.
      destruct (Z.le_ge_cases a b) as [H|H]; apply Z.leb_le in H; auto.
    + apply (Permutation_NoDup (Permutation_sym P)).
      apply (@unique_NoDup _ Z.eqb Z_eqb_eq).
  - intros y. split.
    + intros H. apply (Permutation_in _ P) in H.
      apply (proj1 (@unique_In _ Z.eqb Z.leb Z_eqb_eq _ _)) in H.
      apply in_map_iff in H as (r & E & Hr). eauto.
    + intros (r & Hr & <-).
      apply (Permutation_in _ (Permutation_sym P)).
      apply (@unique_In _ Z.eqb Z.leb Z_eqb_eq). apply in_map. exact Hr.
Qed.

(** X18. The manufacturer multiselect offers exactly the makes present in
    the table, each once, in ascending code-point order. *)
Theorem make_options_sorted (df : list row) :
  StronglySorted (fun a b => text_leb a b = true) (make_options df) /\
  NoDup (make_options df) /\
  forall m, In m (make_options df) <-> exists r, In r df /\ make r = m.
Proof.
  unfold make_options.
  pose proof (sorted_perm text_leb (unique text_eqb (map make df))) as P.
  split; [|split].
  - apply Sorted_StronglySorted.
    + intros a b c. apply text_leb_trans.
    + apply sorted_Sorted. intros a b. apply text_leb_total.
  - apply (Permutation_NoDup (Permutation_sym P)).
    apply (@unique_NoDup _ text_eqb text_eqb_eq).
  - intros m. split.
    + intros H. apply (Permutation_in _ P) in H.
      apply (proj1 (@unique_In _ text_eqb text_leb text_eqb_eq _ _)) in H.
      apply in_map_iff in H as (r & E & Hr). eauto.
    + intros (r & Hr & <-).
      apply (Permutation_in _ (Permutation_sym P)).
      apply (@unique_In _ text_eqb text_leb text_eqb_eq). apply in_map. exact Hr.
Qed.

(* ================================================================== *)
(** * Further properties of the tiles and charts (lines 124-170) *)

(** X19. The counts of the growth line chart, grouped by model year, add
    up to the Total EVs tile. *)
Theorem count_by_year_sum (df_f : list row) :
  sum_counts (count_by_year df_f) = total_evs df_f.
Proof.
  unfold count_by_year, total_evs.
  rewrite (@groupby_size_total _ Z.eqb Z.leb Z_eqb_eq). apply length_map.
Qed.

Lemma count_map_make k (df_f : list row) :
  count text_eqb k (map make df_f)
  = List.length (filter (fun r => text_eqb k (make r)) df_f).
Proof.
  unfold count. induction df_f as [|r df_f IH]; simpl; [reflexivity|].
  destruct (text_eqb k (make r)); simpl; rewrite IH; reflexivity.
Qed.

(** X20. The manufacturer bar chart has one bar per option that the
    manufacturer multiselect would offer for the filtered table, in the
    same order, so as many bars as the Manufacturers tile says; each bar
    counts the rows of its make and is at least 1. *)
Theorem count_by_make_bars (df_f : list row) :
  map fst (count_by_make df_f) = make_options df_f /\
  List.length (count_by_make df_f)
  = List.length (unique text_eqb (map make df_f)) /\
  forall k n,
    In (k, n) (count_by_make df_f) ->
    n = List.length (filter (fun r => text_eqb k (make r)) df_f) /\ 1 <= n.
Proof.
  unfold count_by_make, groupby_size, make_options. split; [|split].
  - rewrite map_map. simpl. apply map_id.
  - rewrite length_map.
    apply Permutation_length. apply sorted_perm.
  - intros k n H. apply in_map_iff in H as (k' & [= -> <-] & Hk).
    rewrite count_map_make. split; [reflexivity|].
    apply (Permutation_in _ (sorted_perm text_leb _)) in Hk.
    apply (proj1 (@unique_In _ text_eqb text_leb text_eqb_eq _ _)) in Hk.
    apply in_map_iff in Hk as (r & <- & Hr).
    assert (Hin : In r (filter (fun r0 => text_eqb (make r) (make r0)) df_f)).
    { apply filter_In. split; [exact Hr | apply text_eqb_refl]. }
    destruct (filter (fun r0 => text_eqb (make r) (make r0)) df_f);
      [contradiction | simpl; lia].
Qed.

Lemma count_by_make_bars_witness :
  2 = List.length
        (filter (fun r => text_eqb (lit "KIA") (make r))
           [Row 2021 (lit "KIA") (lit "EV6") (Some (lit "Kent")) 310 0 None NaN NaN;
            Row 2019 (lit "KIA") (lit "NIRO") (Some (lit "Kent")) 239 0 None NaN NaN])
  /\ 1 <= 2.
Proof.
  apply (proj2 (proj2 (count_by_make_bars
           [Row 2021 (lit "KIA") (lit "EV6") (Some (lit "Kent")) 310 0 None NaN NaN;
            Row 2019 (lit "KIA") (lit "NIRO") (Some (lit "Kent")) 239 0 None NaN NaN]))
           (lit "KIA") 2).
  left. reflexivity.
Defined.

Lemma avg_mileage_ok (float_mean : list Z -> Q) (df_f : list row) :
  df_f <> [] -> exists v, avg_mileage float_mean df_f = Ok v.
Proof.
  destruct df_f as [|r df_f]; [congruence|]. intros _.
  unfold avg_mileage, series_mean. simpl. eauto.
Qed.

Lemma unique_length_le {A} (eqb : A -> A -> bool) (l : list A) :
  List.length (unique eqb l) <= List.length l.
Proof.
  induction l as [|a l IH]; simpl; [lia|].
  pose proof (filter_length_le (fun y => negb (eqb y a)) (unique eqb l)). lia.
Qed.

Lemma unique_length_pos {A} (eqb : A -> A -> bool) (l : list A) :
  l <> [] -> 1 <= List.length (unique eqb l).
Proof. destruct l; [congruence | simpl; lia]. Qed.

(** X22. The dashboard fails, on the Avg Mileage tile, exactly when the
    two selections leave no row: no row of the table has both its year and
    its make selected. *)
Theorem dashboard_fails_iff (float_mean : list Z -> Q)
        (df : list row) (year : list Z) (makes : list text) :
  render float_mean (df_filter df year makes) = Raise ValueError <->
  forall r, In r df -> ~ (In (model_year r) year /\ In (make r) makes).
Proof.
  split.
  - intros H r Hr Hsel.
    assert (Hin : In r (df_filter df year makes))
      by (apply df_filter_In; tauto).
    unfold render in H.
    destruct (df_filter df year makes) as [|r0 l] eqn:E; [contradiction|].
    destruct (@avg_mileage_ok float_mean (r0 :: l) ltac:(discriminate))
      as (v & Hv).
    rewrite Hv in H. discriminate.
  - intros H.
    assert (E : df_filter df year makes = []).
    { destruct (df_filter df year makes) as [|r l] eqn:E; [reflexivity|].
      exfalso. assert (Hin : In r (df_filter df year makes))
        by (rewrite E; left; reflexivity).
      apply df_filter_In in Hin as (Hr & Hy & Hm). exact (H r Hr (conj Hy Hm)). }
    rewrite E. reflexivity.
Qed.

Lemma dashboard_fails_iff_witness :
  render exact_mean (df_filter
            [Row 2021 (lit "KIA") (lit "EV6") (Some (lit "Kent")) 310 0 None NaN NaN]
            [2019]%Z [lit "KIA"])
  = Raise ValueError.
Proof.
  apply dashboard_fails_iff. intros r [<-|[]] [[E|[]] _]. discriminate.
Defined.

Lemma present_length_le {A} (col : list (option A)) :
  List.length (present col) <= List.length col.
Proof.
  induction col as [|[x|] col IH]; simpl; lia.
Qed.

Lemma present_nonempty {A} (col : list (option A)) :
  present col <> [] <-> exists x, In (Some x) col.
Proof.
  induction col as [|[x|] col IH]; simpl.
  - split; [congruence | intros [x []]].
  - split; [intros _; eauto | discriminate].
  - rewrite IH. split.
    + intros [x H]. eauto.
    + intros [x [H|H]]; [discriminate | eauto].
Qed.

(** X23. When the dashboard is shown, its tiles and charts agree: both
    charts add up to the Total EVs tile, the bar chart has as many bars as
    the Manufacturers tile says, the Manufacturers tile is at least 1 and
    at most the Total EVs tile, and the Cities tile is at most the Total EVs
    tile and at least 1 exactly when some row has a city. *)
Theorem render_consistent (float_mean : list Z -> Q)
        (df_f : list row) (d : dashboard) :
  render float_mean df_f = Ok d ->
  kpi_total_evs d = List.length df_f /\
  sum_counts (chart_make d) = kpi_total_evs d /\
  sum_counts (chart_year d) = kpi_total_evs d /\
  List.length (chart_make d) = kpi_manufacturers d /\
  1 <= kpi_manufacturers d <= kpi_total_evs d /\
  kpi_cities d <= kpi_total_evs d /\
  (1 <= kpi_cities d <-> exists r, In r df_f /\ city r <> None).
Proof.
  unfold render. intros H.
  destruct (avg_mileage float_mean df_f) as [v|] eqn:Hv; [|discriminate].
  simpl in H. injection H as <-. cbn [kpi_total_evs kpi_manufacturers
    kpi_cities chart_make chart_year].
  assert (Hne : df_f <> []) by (intros ->; discriminate).
  assert (Hm : map make df_f <> []) by (destruct df_f; [congruence|discriminate]).
  pose proof (unique_length_le text_eqb (map make df_f)) as L1.
  pose proof (unique_length_le text_eqb (present (map city df_f))) as L2.
  pose proof (present_length_le (map city df_f)) as L3.
  pose proof (unique_length_pos text_eqb Hm) as P1.
  rewrite length_map in L1, L3.
  unfold count_by_make at 1, count_by_year.
  rewrite (@groupby_size_total _ text_eqb text_leb text_eqb_eq).
  rewrite (@groupby_size_total _ Z.eqb Z.leb Z_eqb_eq).
  rewrite !length_map.
  destruct (count_by_make_bars df_f) as (_ & Hb & _).
  unfold total_evs, nunique.
  split; [reflexivity|]. split; [reflexivity|]. split; [reflexivity|].
  split; [exact Hb|]. split; [lia|]. split; [lia|].
  split.
  - intros H1.
    assert (Hp : present (map city df_f) <> []).
    { intros E. rewrite E in H1. simpl in H1. lia. }
    apply present_nonempty in Hp as [x Hx].
    apply in_map_iff in Hx as (r & Hr & Hin).
    exists r. split; [exact Hin | congruence].
  - intros (r & Hin & Hr). apply unique_length_pos.
    apply present_nonempty. destruct (city r) as [x|] eqn:E; [|congruence].
    exists x. rewrite <- E. apply in_map. exact Hin.
Qed.

Lemma render_consistent_witness :
  exists d,
    render exact_mean
      [Row 2021 (lit "KIA") (lit "EV6") (Some (lit "Kent")) 310 0 None NaN NaN;
       Row 2019 (lit "KIA") (lit "NIRO") None 239 0 None NaN NaN]
    = Ok d /\
    sum_counts (chart_make d) = kpi_total_evs d /\
    List.length (chart_make d) = kpi_manufacturers d.
Proof.
  destruct (render exact_mean
    [Row 2021 (lit "KIA") (lit "EV6") (Some (lit "Kent")) 310 0 None NaN NaN;
     Row 2019 (lit "KIA") (lit "NIRO") None 239 0 None NaN NaN])
    as [d|e] eqn:E; [|vm_compute in E; discriminate].
  exists d. split; [reflexivity|].
  split; apply (render_consistent _ _ E).
Defined.

